(** * IBM index selection: a shallow embedding of [ibm_algorithm.py]

    The development follows [selection/algorithms/ibm_algorithm.py]:
    candidate generation ([_possible_indexes]), the what-if adapter
    ([_recommended_indexes], [_exploit_virtual_indexes]), the benefit
    calculator ([_calculate_index_benefits]), the subsumption reducer
    ([_combine_subsumed]), the greedy fill loop of
    [_calculate_best_indexes] and the randomized refiner
    ([_try_variations]).

    Numbers: plan costs and index sizes are taken as Python integers,
    in [Z].  The benefit/size ratio is a Python float: [/] on two
    integers yields the double (IEEE 754 binary64) nearest to the
    quotient, ties going to the even significand.  A double is
    represented by the rational number it denotes, in [Q], and
    [binary64] is the rounding.  Quotients beyond the range of
    doubles (2^1024 and more in magnitude, where [/] raises
    [OverflowError]) are outside the model.

    Containers: a Python [set] is a [gset] and the dictionary
    [query_results] a [gmap]; where the code iterates over one,
    [elements] and [map_to_list] stand for Python's iteration order.
    Lists are lists.

    Collaborators: the database connector with its hypothetical
    indexes, the cost evaluation, the module [random] and the clock are
    not part of the algorithm; they are the classes
    [DatabaseConnector], [CostEvaluation], [Random] and the list of
    clock readings handed to the refiner.

    Python exceptions are values of [exn]; a function that can raise
    returns a [result]. *)

From Stdlib Require Import ZArith QArith Qround Qpower Lia Lqa.
From stdpp Require Import base option list sorting gmap sets strings.

Local Open Scope Z_scope.
#[local] Set Warnings "-clear-no-such-hyp".

(** ** Exceptions *)

Inductive exn : Type :=
| NameError (name : string)
| ZeroDivisionError
| AssertionError (msg : string)
| ValueError
| IndexError.

Inductive result (A : Type) : Type :=
| Ok (a : A)
| Err (e : exn).
Arguments Ok {A} a.
Arguments Err {A} e.

#[global] Instance result_ret : MRet result := λ A a, Ok a.
#[global] Instance result_bind : MBind result := λ A B f m,
  match m with
  | Ok a => f a
  | Err e => Err e
  end.

(** [for x in l: body] where the body may raise. *)
Fixpoint for_each {A S : Type} (body : S → A → result S) (l : list A) (s : S)
  : result S :=
  match l with
  | [] => Ok s
  | x :: l' => s' ← body s x; for_each body l' s'
  end.

(** Reading a name that is bound neither locally nor globally. *)
Definition unbound_name {A : Type} (name : string) : result A :=
  Err (NameError name).

(** ** Data model *)

(** Modelled from the spec: [selection.workload.Column] is not part of
    the sources at hand; a column is identified by (table, name). *)
Record Column : Type := mkColumn { table : string; name : string }.

#[global] Instance Column_eq_dec : EqDecision Column.
Proof. solve_decision. Defined.

#[global] Instance Column_countable : Countable Column.
Proof.
  apply (inj_countable' (λ c, (table c, name c)) (λ p, mkColumn p.1 p.2)).
  by intros [].
Defined.

(** Modelled from the spec: [selection.index.Index] is not part of the
    sources at hand; an index is its ordered column sequence and is
    compared by that sequence. *)
Record Index : Type := mkIndex { index_columns : list Column }.

#[global] Instance Index_eq_dec : EqDecision Index.
Proof. solve_decision. Defined.

#[global] Instance Index_countable : Countable Index.
Proof.
  apply (inj_countable' index_columns mkIndex). by intros [].
Defined.

(** [Index.subsumes] is not part of the sources at hand: the reducer is
    stated for whatever test the class implements. *)
Class Subsumption : Type := subsumes : Index → Index → bool.

(** Modelled from the spec: [Index.subsumes] is not part of the sources
    at hand; A subsumes B when B's column sequence is a leading part of
    A's column sequence. *)
Definition prefix_subsumes : Subsumption :=
  λ self other,
    bool_decide (take (length (index_columns other)) (index_columns self)
                 = index_columns other).

(** Modelled from the spec: [selection.workload.Query] is not part of
    the sources at hand; a query has a unique identifier and its
    indexable columns. *)
Record Query : Type := mkQuery { nr : Z; columns : list Column }.

#[global] Instance Query_eq_dec : EqDecision Query.
Proof. solve_decision. Defined.

#[global] Instance Query_countable : Countable Query.
Proof.
  apply (inj_countable' (λ q, (nr q, columns q)) (λ p, mkQuery p.1 p.2)).
  by intros [].
Defined.

Record Workload : Type := mkWorkload { queries : list Query }.

(** [self.parameters] *)
Class Parameters : Type := mkParameters {
  max_index_columns : Z;
  budget : Z;
  try_variation_seconds_limit : Z;
  try_variation_maximum_remove : Z
}.

Definition DEFAULT_PARAMETERS : Parameters :=
  {| max_index_columns := 3;
     budget := 500;
     try_variation_seconds_limit := 10;
     try_variation_maximum_remove := 4 |}.

(** The estimated size that simulating an index with [store_size=True]
    records on it; it is a function of the index. *)
Class SizeEstimate : Type := estimated_size : Index → Z.

(** [class IndexBenefit] *)
Record IndexBenefit : Type := mkIndexBenefit { index : Index; benefit : Z }.

#[global] Instance IndexBenefit_eq_dec : EqDecision IndexBenefit.
Proof. solve_decision. Defined.

#[global] Instance IndexBenefit_countable : Countable IndexBenefit.
Proof.
  apply (inj_countable' (λ x, (index x, benefit x))
                        (λ p, mkIndexBenefit p.1 p.2)).
  by intros [].
Defined.

(** [IndexBenefit.size] *)
Definition IndexBenefit_size `{SizeEstimate} (self : IndexBenefit) : Z :=
  estimated_size (index self).

(** *** Python floats

    Rounding to the nearest integer, ties to the even one. *)
Definition round_half_even (x : Q) : Z :=
  let k := Qfloor x in
  match (x - inject_Z k ?= 1 # 2)%Q with
  | Lt => k
  | Gt => k + 1
  | Eq => if Z.even k then k else k + 1
  end.

(** The exponent [e] with [2 ^ e <= x < 2 ^ (e + 1)], for [0 < x]. *)
Definition binade (x : Q) : Z :=
  let e := Z.log2 (Qnum x) - Z.log2 (Z.pos (Qden x)) in
  if Qle_bool (2 ^ e) x then e else e - 1.

(** The exponent of the last place of the doubles around [x]: a
    significand has 53 bits, and the subnormal doubles are the
    multiples of [2 ^ -1074]. *)
Definition quantum (x : Q) : Z := Z.max (binade x - 52) (-1074).

(** The double nearest to [x], for [0 < x]. *)
Definition binary64_pos (x : Q) : Q :=
  (inject_Z (round_half_even (x / 2 ^ quantum x)) * 2 ^ quantum x)%Q.

(** The double nearest to [x]. *)
Definition binary64 (x : Q) : Q :=
  match (x ?= 0)%Q with
  | Gt => binary64_pos x
  | Lt => (- binary64_pos (- x))%Q
  | Eq => 0%Q
  end.

(** True division of two integers, [a / b]: Python raises on a zero
    divisor and returns the double nearest to the quotient
    otherwise. *)
Definition truediv (a b : Z) : result Q :=
  if decide (b = 0) then Err ZeroDivisionError
  else Ok (binary64 (inject_Z a / inject_Z b)).

(** [IndexBenefit.benefit_size_ratio] *)
Definition benefit_size_ratio `{SizeEstimate} (self : IndexBenefit) : result Q :=
  truediv (benefit self) (IndexBenefit_size self).

(** ** The standard library functions the code calls *)

Module itertools.

(** Every way of taking one element out of [l], in position order. *)
Fixpoint selections {A : Type} (l : list A) : list (A * list A) :=
  match l with
  | [] => []
  | x :: l' => (x, l') :: ((λ yr, (yr.1, x :: yr.2)) <$> selections l')
  end.

(** [itertools.permutations(l, r)]: the sequences of [r] elements at
    pairwise different positions of [l], in lexicographic position
    order. *)
Fixpoint permutations {A : Type} (l : list A) (r : nat) : list (list A) :=
  match r with
  | O => [[]]
  | S r' => xr ← selections l; (cons xr.1) <$> permutations xr.2 r'
  end.

End itertools.

(** [range(a, b)] *)
Definition range (a b : Z) : list Z := seqZ a (b - a).

(** [sorted(l, reverse=True, key=key)] on the already computed keys:
    stable, descending. *)
Section sorted_reverse.
Context {A K : Type} (geb : K → K → bool).

Fixpoint insert_desc (x : K * A) (l : list (K * A)) : list (K * A) :=
  match l with
  | [] => [x]
  | y :: l' => if geb x.1 y.1 then x :: y :: l' else y :: insert_desc x l'
  end.

Fixpoint sort_desc (l : list (K * A)) : list (K * A) :=
  match l with
  | [] => []
  | x :: l' => insert_desc x (sort_desc l')
  end.
End sorted_reverse.


(** ** Candidate generator *)

Section candidate_generator.
Context `{Parameters}.

(** One turn of the grouping loop of [_possible_indexes]. *)
Definition group_step (indexable_columns_per_table : gmap string (gset Column))
    (column : Column) : gmap string (gset Column) :=
  let d := indexable_columns_per_table in
  let d := if decide (is_Some (d !! table column)) then d
           else <[table column := ∅]> d in
  <[table column := (d !!! table column) ∪ {[column]}]> d.

(** [IBMAlgorithm._possible_indexes] *)
Definition _possible_indexes (query : Query) : list Index :=
  let columns := columns query in
  let max_columns := max_index_columns in
  let indexable_columns_per_table : gmap string (gset Column) :=
    foldl group_step ∅ columns in
  let possible_indexes : gset (list Column) :=
    foldl (λ acc tc,
             let columns := elements (tc.2 : gset Column) in
             foldl (λ acc index_length,
                      acc ∪ list_to_set
                        (itertools.permutations columns (Z.to_nat index_length)))
                   acc (range 1 (max_columns + 1)))
          ∅ (map_to_list indexable_columns_per_table) in
  mkIndex <$> elements possible_indexes.

End candidate_generator.

(** [l[i]] for a position inside or outside the list. *)
Definition getitem {A : Type} (l : list A) (i : nat) : result A :=
  match l !! i with
  | Some x => Ok x
  | None => Err IndexError
  end.

(** [l.remove(x)]: drops the first element equal to [x]. *)
Fixpoint list_remove `{EqDecision A} (x : A) (l : list A) : result (list A) :=
  match l with
  | [] => Err ValueError
  | y :: l' => if decide (x = y) then Ok l'
               else r ← list_remove x l'; Ok (y :: r)
  end.

(** [sub in s] on strings *)
Definition contains (sub s : string) : bool :=
  bool_decide (is_Some (String.index 0 sub s)).

(** [enumerate(l)] *)
Definition enumerate {A : Type} (l : list A) : list (nat * A) :=
  imap (λ i x, (i, x)) l.

(** ** Cost-oracle adapter *)

(** What [database_connector.get_plan] returns, as far as the code reads
    it: the entry ['Total Cost'] and the text [str(plan)]. *)
Record Plan : Type := mkPlan { Total_Cost : Z; str : string }.

(** The database session with its hypothetical indexes.
    [simulate_index] registers the index and yields the [hypopg_name]
    it stores on the index. *)
Class DatabaseConnector : Type := {
  db : Type;
  get_plan : db → Query → Plan;
  simulate_index : db → Index → db * string;
  drop_all_simulated_indexes : db → db
}.

(** The value stored under a query in [query_results]. *)
Record QueryResult : Type := mkQueryResult {
  cost_without_indexes : Z;
  cost_with_recommended_indexes : Z;
  recommended_indexes : list Index
}.

Section cost_oracle_adapter.
Context `{Parameters} `{DatabaseConnector}.

(** [IBMAlgorithm._recommended_indexes] *)
Definition _recommended_indexes (s : db) (query : Query)
  : db * (list Index * Z) :=
  let indexes := _possible_indexes query in
  let '(s, named) :=
    foldl (λ (acc : db * list (Index * string)) index,
             let '(s', hypopg_name) := simulate_index acc.1 index in
             (s', acc.2 ++ [(index, hypopg_name)]))
          (s, []) indexes in
  let plan := get_plan s query in
  let plan_string := str plan in
  let cost := Total_Cost plan in
  let s := drop_all_simulated_indexes s in
  let recommended_indexes :=
    (filter (λ ih, contains ih.2 plan_string = true) named).*1 in
  (s, (recommended_indexes, cost)).

(** One turn of the loop of [_exploit_virtual_indexes]. *)
Definition exploit_query
    (acc : db * (gmap Query QueryResult * gset Index)) (query : Query)
  : db * (gmap Query QueryResult * gset Index) :=
  let '(s, (query_results, index_candidates)) := acc in
  let plan := get_plan s query in
  let cost_without_indexes := Total_Cost plan in
  let '(s, (indexes, cost_with_recommended_indexes)) :=
    _recommended_indexes s query in
  let query_results :=
    <[query := {| cost_without_indexes := cost_without_indexes;
                  cost_with_recommended_indexes := cost_with_recommended_indexes;
                  recommended_indexes := indexes |}]> query_results in
  (s, (query_results, index_candidates ∪ list_to_set indexes)).

(** [IBMAlgorithm._exploit_virtual_indexes] *)
Definition _exploit_virtual_indexes (s : db) (workload : Workload)
  : db * (gmap Query QueryResult * gset Index) :=
  foldl exploit_query (s, (∅, ∅)) (queries workload).

End cost_oracle_adapter.

(** ** Benefit calculator *)

(** Compute the sort keys in list order. *)
Fixpoint with_keys {A K : Type} (key : A → result K) (l : list A)
  : result (list (K * A)) :=
  match l with
  | [] => Ok []
  | x :: l' => k ← key x; r ← with_keys key l'; Ok ((k, x) :: r)
  end.

(** [sorted(l, reverse=True, key=key)] *)
Definition sorted_reverse {A : Type} (key : A → result Q) (l : list A)
  : result (list A) :=
  keyed ← with_keys key l;
  Ok ((sort_desc (λ a b, Qle_bool b a) keyed).*2).

Section benefit_calculator.
Context `{SizeEstimate}.

(** The inner loop of [_calculate_index_benefits]. *)
Definition benefit_of (index_candidate : Index)
    (query_results : gmap Query QueryResult) : Z :=
  foldl (λ benefit (qv : Query * QueryResult),
           let value := qv.2 in
           if decide (index_candidate ∉ recommended_indexes value) then benefit
           else
             let benefit_for_query :=
               cost_without_indexes value - cost_with_recommended_indexes value in
             benefit + benefit_for_query)
        0 (map_to_list query_results).

(** [IBMAlgorithm._calculate_index_benefits] *)
Definition _calculate_index_benefits (candidates : gset Index)
    (query_results : gmap Query QueryResult) : result (list IndexBenefit) :=
  let indexes_benefit :=
    foldl (λ indexes_benefit index_candidate,
             let benefit := benefit_of index_candidate query_results in
             indexes_benefit ++ [mkIndexBenefit index_candidate benefit])
          [] (elements candidates) in
  sorted_reverse benefit_size_ratio indexes_benefit.

End benefit_calculator.

(** ** Subsumption reducer *)

Section subsumption_reducer.
Context `{SizeEstimate} `{Subsumption}.

(** The inner loop of [_combine_subsumed]. *)
Definition scan_lower (index_benefit_high_ratio : IndexBenefit)
    (already_removed_index_benefits : gset IndexBenefit)
    (lower : list IndexBenefit) : gset IndexBenefit :=
  foldl (λ (removed : gset IndexBenefit) index_benefit_low_ratio,
           if decide (index_benefit_low_ratio ∈ removed) then removed
           else if subsumes (index index_benefit_high_ratio)
                            (index index_benefit_low_ratio)
                then removed ∪ {[index_benefit_low_ratio]}
                else removed)
        already_removed_index_benefits lower.

(** One turn of the outer loop of [_combine_subsumed]. *)
Definition scan_turn (index_benefits : list IndexBenefit)
    (already_removed_index_benefits : gset IndexBenefit)
    (ph : nat * IndexBenefit) : gset IndexBenefit :=
  let high_ratio_pos := ph.1 in
  let index_benefit_high_ratio := ph.2 in
  if decide (index_benefit_high_ratio ∈ already_removed_index_benefits)
  then already_removed_index_benefits
  else scan_lower index_benefit_high_ratio already_removed_index_benefits
                  (drop (high_ratio_pos + 1) index_benefits).

(** The outer loop of [_combine_subsumed]. *)
Definition scan_all (index_benefits : list IndexBenefit)
  : gset IndexBenefit :=
  foldl (scan_turn index_benefits) ∅ (enumerate index_benefits).

(** [IBMAlgorithm._combine_subsumed] *)
Definition _combine_subsumed (index_benefits : list IndexBenefit)
  : result (gset IndexBenefit) :=
  if decide (length index_benefits < 2)%nat then
    Ok (list_to_set index_benefits)
  else
    r0 ← (x ← getitem index_benefits 0; benefit_size_ratio x);
    r1 ← (x ← getitem index_benefits 1; benefit_size_ratio x);
    if Qle_bool r1 r0 then
      let already_removed_index_benefits := scan_all index_benefits in
      Ok (list_to_set index_benefits ∖ already_removed_index_benefits)
    else Err (AssertionError "_combine_subsumed got probably unsorted input").

End subsumption_reducer.

(** ** Greedy selector and randomized refiner *)

(** The greedy loop and the refiner read their list elements with
    [x['size']] and [x['index']]: the elements are dictionaries with
    these two keys. *)
Record Entry : Type := mkEntry { entry_index : Index; entry_size : Z }.

#[global] Instance Entry_eq_dec : EqDecision Entry.
Proof. solve_decision. Defined.

(** [self.cost_evaluation.calculate_cost] *)
Class CostEvaluation : Type :=
  calculate_cost : Workload → list Index → Z.

(** Python's [random] module: the generator state, [random.randrange]
    on a non-empty range, and [random.shuffle]. *)
Class Random : Type := {
  rng : Type;
  randrange : Z → Z → rng → Z * rng;
  shuffle : ∀ {A : Type}, list A → rng → list A * rng
}.

(** What the code relies on: the drawn number lies in the range and a
    shuffled list is a rearrangement of the given list. *)
Class RandomSpec `{Random} : Prop := {
  randrange_bounds a b g : a < b → a ≤ (randrange a b g).1 < b;
  shuffle_Permutation {A : Type} (l : list A) g : (shuffle l g).1 ≡ₚ l
}.

(** [random.randrange(a, b)] raises on an empty range. *)
Definition random_randrange `{Random} (a b : Z) (g : rng) : result (Z * rng) :=
  if decide (a < b) then Ok (randrange a b g) else Err ValueError.

(** [sum([x['size'] for x in l])] *)
Definition sum_sizes (l : list Entry) : Z :=
  foldr Z.add 0 (entry_size <$> l).

(** [sorted(l, reverse=True)] on positions *)
Definition sorted_reverse_nat (l : list nat) : list nat :=
  (sort_desc (λ a b, Nat.leb b a) ((λ i, (i, i)) <$> l)).*2.

(** What the refiner's loop carries from one iteration to the next. *)
Record RefinerState `{Random} : Type := mkRefinerState {
  selected_indexes : list Entry;
  not_used_indexes : list Entry;
  current_cost : Z;
  generator : rng
}.

(** The lists and counters of one iteration before its decision. *)
Record Tentative `{Random} : Type := mkTentative {
  t_selected_indexes : list Entry;
  t_removed : list Entry;
  t_new_selected : list Entry;
  t_not_used_indexes : list Entry;
  t_disk_usage : Z;
  t_generator : rng
}.

Section selection.
Context `{Parameters} `{CostEvaluation} `{Random}.

(** [self.disk_constraint], [self.seconds_limit], [self.maximum_remove] *)
Definition disk_constraint : Z := budget * 1000000.
Definition seconds_limit : Z := try_variation_seconds_limit.
Definition maximum_remove : Z := try_variation_maximum_remove.

(** One turn of the greedy loop of [_calculate_best_indexes]. *)
Definition greedy_step (acc : list Entry * Z) (index : Entry)
  : list Entry * Z :=
  let '(selected_indexes, disk_usage) := acc in
  if decide (disk_usage + entry_size index ≤ disk_constraint) then
    (selected_indexes ++ [index], disk_usage + entry_size index)
  else (selected_indexes, disk_usage).

(** The greedy loop of [_calculate_best_indexes] (lines 64-69). *)
Definition greedy_fill (indexes_benefits : list Entry) : list Entry * Z :=
  foldl greedy_step ([], 0) indexes_benefits.

(** [IBMAlgorithm._evaluate_workload] *)
Definition _evaluate_workload (selected new_selected : list Entry)
    (workload : Workload) : Z :=
  let index_candidates := selected ++ new_selected in
  let index_candidates := entry_index <$> index_candidates in
  calculate_cost workload index_candidates.

(** The removal loop of an iteration: one turn. *)
Definition remove_step (acc : list Entry * Z * list Entry)
    (remove_at_index : nat) : result (list Entry * Z * list Entry) :=
  let '(selected_indexes, disk_usage, removed) := acc in
  index ← getitem selected_indexes remove_at_index;
  Ok (delete remove_at_index selected_indexes,
      disk_usage - entry_size index,
      removed ++ [index]).

(** The loop adding unused indexes: [n] turns are left. *)
Fixpoint add_loop (n : nat) (disk_usage : Z)
    (new_selected not_used_indexes : list Entry) (g : rng)
  : result (Z * list Entry * list Entry * rng) :=
  match n with
  | O => Ok (disk_usage, new_selected, not_used_indexes, g)
  | S n' =>
      let maximum_size := disk_constraint - disk_usage in
      let candidates :=
        filter (λ x, entry_size x ≤ maximum_size) not_used_indexes in
      if decide (length candidates = 0%nat) then
        Ok (disk_usage, new_selected, not_used_indexes, g)
      else
        let '(candidates, g) := shuffle candidates g in
        selected_index ← getitem candidates 0;
        not_used_indexes ← list_remove selected_index not_used_indexes;
        add_loop n' (disk_usage + entry_size selected_index)
                 (new_selected ++ [selected_index]) not_used_indexes g
  end.

(** The body of the [while] loop up to the evaluation of the
    variation (lines 193-221). *)
Definition try_variation (st : RefinerState) : result Tentative :=
  let selected_indexes := selected_indexes st in
  let disk_usage := sum_sizes selected_indexes in
  '(number_removed, g) ← random_randrange 1 maximum_remove (generator st);
  let remove_at_indexes := seq 0 (length selected_indexes) in
  let '(remove_at_indexes, g) := shuffle remove_at_indexes g in
  let remove_at_indexes := take (Z.to_nat number_removed) remove_at_indexes in
  '(selected_indexes, disk_usage, removed) ←
    for_each remove_step (sorted_reverse_nat remove_at_indexes)
             (selected_indexes, disk_usage, []);
  '(disk_usage, new_selected, not_used_indexes, g) ←
    add_loop (Z.to_nat number_removed) disk_usage [] (not_used_indexes st) g;
  Ok {| t_selected_indexes := selected_indexes;
        t_removed := removed;
        t_new_selected := new_selected;
        t_not_used_indexes := not_used_indexes;
        t_disk_usage := disk_usage;
        t_generator := g |}.

(** The decision of an iteration (lines 224-233); the flag tells
    whether the variation was accepted. *)
Definition decide_variation (workload : Workload) (st : RefinerState)
    (t : Tentative) : bool * RefinerState :=
  let cost := _evaluate_workload (t_selected_indexes t) (t_new_selected t)
                                 workload in
  if decide (cost < current_cost st) then
    (true,
     {| not_used_indexes := t_not_used_indexes t ++ t_removed t;
        selected_indexes := t_selected_indexes t ++ t_new_selected t;
        current_cost := cost;
        generator := t_generator t |})
  else
    (false,
     {| selected_indexes := t_selected_indexes t ++ t_removed t;
        not_used_indexes := t_not_used_indexes t ++ t_new_selected t;
        current_cost := current_cost st;
        generator := t_generator t |}).

(** One iteration of the [while] loop of [_try_variations]. *)
Definition iteration (workload : Workload) (st : RefinerState)
  : result (bool * RefinerState) :=
  t ← try_variation st; Ok (decide_variation workload st t).

(** The [while] loop of [_try_variations].  [readings] are the values
    of [time.time()] at the successive loop tests; the result lists,
    for each iteration run, its decision and the state it leaves. *)
Fixpoint while_time (workload : Workload) (deadline : Z) (readings : list Z)
    (st : RefinerState) : result (list (bool * RefinerState)) :=
  match readings with
  | [] => Ok []
  | now :: readings' =>
      if decide (deadline > now) then
        r ← iteration workload st;
        rest ← while_time workload deadline readings' r.2;
        Ok (r :: rest)
      else Ok []
  end.

(** The state the loop of [_try_variations] starts from. *)
Definition initial_state (selected_indexes indexes_benefits : list Entry)
    (workload : Workload) (g : rng) : RefinerState :=
  let not_used_indexes :=
    filter (λ x, x ∉ selected_indexes) indexes_benefits in
  let current_cost := _evaluate_workload selected_indexes [] workload in
  {| selected_indexes := selected_indexes;
     not_used_indexes := not_used_indexes;
     current_cost := current_cost;
     generator := g |}.

(** [IBMAlgorithm._try_variations], with the log of its iterations.
    [start_time] is the first reading of the clock. *)
Definition _try_variations_log (selected_indexes indexes_benefits : list Entry)
    (disk_usage : Z) (workload : Workload) (start_time : Z)
    (readings : list Z) (g : rng) : result (list (bool * RefinerState)) :=
  while_time workload (start_time + seconds_limit) readings
             (initial_state selected_indexes indexes_benefits workload g).

(** The selected list after the logged iterations. *)
Definition final_selection (start : list Entry)
    (log : list (bool * RefinerState)) : list Entry :=
  match last log with
  | Some r => selected_indexes r.2
  | None => start
  end.

(** [IBMAlgorithm._try_variations]: the list [selected_indexes] as the
    caller finds it afterwards. *)
Definition _try_variations (selected_indexes indexes_benefits : list Entry)
    (disk_usage : Z) (workload : Workload) (start_time : Z)
    (readings : list Z) (g : rng) : result (list Entry) :=
  log ← _try_variations_log selected_indexes indexes_benefits disk_usage
                            workload start_time readings g;
  Ok (final_selection selected_indexes log).

End selection.

Section best_indexes.
Context `{Parameters} `{SizeEstimate} `{Subsumption} `{DatabaseConnector}
        `{CostEvaluation} `{Random}.

(** [IBMAlgorithm._calculate_best_indexes].  The function binds
    [index_benefits] and then reads [indexes_benefits], a name bound
    nowhere. *)
Definition _calculate_best_indexes (s : db) (workload : Workload)
    (start_time : Z) (readings : list Z) (g : rng) : result (list Index) :=
  let '(s, (query_results, candidates)) :=
    _exploit_virtual_indexes s workload in
  index_benefits ← _calculate_index_benefits candidates query_results;
  indexes_benefits ← unbound_name "indexes_benefits";
  _ ← _combine_subsumed indexes_benefits;
  indexes_benefits ← unbound_name "indexes_benefits";
  let '(selected_indexes, disk_usage) := greedy_fill indexes_benefits in
  indexes_benefits ← unbound_name "indexes_benefits";
  selected_indexes ← _try_variations selected_indexes indexes_benefits
                                     disk_usage workload start_time readings g;
  Ok (entry_index <$> selected_indexes).

End best_indexes.

(** ** Notions used in the statements *)

(** The benefit/size ratio of an entry whose index has an estimated
    size other than zero: the benefit divided by that size, as a
    rational number. *)
Definition ratio `{SizeEstimate} (x : IndexBenefit) : Q :=
  (inject_Z (benefit x) / inject_Z (estimated_size (index x)))%Q.

(** The same ratio as a double. *)
Definition float_ratio `{SizeEstimate} (x : IndexBenefit) : Q :=
  binary64 (ratio x).

(** Sorted descending by benefit/size ratio, every ratio being defined. *)
Definition ratio_sorted `{SizeEstimate} (l : list IndexBenefit) : Prop :=
  Forall (λ x, estimated_size (index x) ≠ 0) l ∧
  Sorted (λ a b, (ratio b <= ratio a)%Q) l.


(** The sum, over the queries whose recommended indexes contain [c], of
    the cost without indexes minus the cost with the recommended ones. *)
Definition benefit_sum (c : Index) (query_results : gmap Query QueryResult) : Z :=
  foldr Z.add 0
    ((λ v, cost_without_indexes v - cost_with_recommended_indexes v) <$>
       filter (λ v, c ∈ recommended_indexes v) (map_to_list query_results).*2).

(** The number of sequences of [r] different elements out of [n]. *)
Fixpoint falling (n r : nat) : nat :=
  match r with
  | O => 1
  | S r' => n * falling (n - 1) r'
  end.

(** The number of column sequences of the lengths 1 to [K] over [n]
    columns. *)
Definition sequence_count (n : nat) (K : Z) : nat :=
  sum_list ((λ index_length, falling n (Z.to_nat index_length))
              <$> range 1 (K + 1)).

(** The state the [k]-th logged iteration started from. *)
Definition state_before `{Random} (st : RefinerState)
    (log : list (bool * RefinerState)) (k : nat) : RefinerState :=
  match k with
  | O => st
  | S k' => from_option snd st (log !! k')
  end.

(** ** A small installation to run the code on *)

Module demo.

Definition A : Column := mkColumn "t" "a".
Definition B : Column := mkColumn "t" "b".
Definition iA : Index := mkIndex [A].
Definition iB : Index := mkIndex [B].
Definition iAB : Index := mkIndex [A; B].
Definition iBA : Index := mkIndex [B; A].

Definition q1 : Query := mkQuery 1 [A; B].
Definition workload : Workload := mkWorkload [q1].

Definition parameters : Parameters :=
  {| max_index_columns := 2; budget := 1;
     try_variation_seconds_limit := 10;
     try_variation_maximum_remove := 4 |}.

(** An index takes 400000 bytes per column. *)
Definition sizes : SizeEstimate :=
  λ i, 400000 * Z.of_nat (length (index_columns i)).

(** The hypothetical name of an index: its column names in angle
    brackets. *)
Definition hypopg_name (i : Index) : string :=
  "<" +:+ foldr (λ c s, name c +:+ s) ">" (index_columns i).

(** A planner that scans [t] sequentially at cost 100 unless the index
    on (a, b) is simulated, which it uses at cost 10. *)
Definition connector : DatabaseConnector :=
  {| db := list Index;
     get_plan := λ s _,
       if decide (iAB ∈ s) then mkPlan 10 "Index Scan using <ab> on t"
       else mkPlan 100 "Seq Scan on t";
     simulate_index := λ s i, (s ++ [i], hypopg_name i);
     drop_all_simulated_indexes := λ _, [] |}.

Definition evaluation : CostEvaluation :=
  λ _ indexes, if decide (iAB ∈ indexes) then 10 else 100.

(** A generator that counts its calls, draws the lower bound and
    shuffles by reversing on odd calls. *)
Definition random : Random :=
  {| rng := nat;
     randrange := λ a _ g, (a, S g);
     shuffle := λ A l g, (if Nat.even g then l else reverse l, S g) |}.

Definition eA : Entry := mkEntry iA 400000.
Definition eB : Entry := mkEntry iB 400000.
Definition eAB : Entry := mkEntry iAB 800000.
Definition eBA : Entry := mkEntry iBA 800000.

(** Two entries selected, two unused, nothing else fits. *)
Definition full : @RefinerState random :=
  @mkRefinerState random [eA; eB] [eAB; eBA] 100 0%nat.

(** One small entry selected, the useful one unused. *)
Definition start : @RefinerState random :=
  @mkRefinerState random [eA] [eAB] 100 0%nat.

End demo.

(** * Properties *)

(** ** Python floats *)

Section rounding.

Lemma round_half_even_bounds (x : Q) :
  Qfloor x ≤ round_half_even x ≤ Qfloor x + 1.
Proof.
  unfold round_half_even. cbv zeta.
  destruct (_ ?= _)%Q; [destruct (Z.even _)|..]; lia.
Qed.

Lemma round_half_even_mono (x y : Q) :
  (x <= y)%Q → round_half_even x ≤ round_half_even y.
Proof.
  intros Hxy. pose proof (Qfloor_resp_le _ _ Hxy) as Hk.
  destruct (decide (Qfloor x = Qfloor y)) as [Heq|Hne].
  - unfold round_half_even. cbv zeta. rewrite Heq.
    destruct (Qcompare_spec (x - inject_Z (Qfloor y)) (1 # 2)),
      (Qcompare_spec (y - inject_Z (Qfloor y)) (1 # 2));
      try destruct (Z.even _); try lia; lra.
  - pose proof (round_half_even_bounds x).
    pose proof (round_half_even_bounds y). lia.
Qed.

(** An integer is its own rounding. *)
Lemma round_half_even_Z (n : Z) : round_half_even (inject_Z n) = n.
Proof.
  unfold round_half_even. cbv zeta. rewrite Qfloor_Z.
  destruct (Qcompare_spec (inject_Z n - inject_Z n) (1 # 2));
    [lra|done|lra].
Qed.

Lemma two_power_pos (e : Z) : (0 < 2 ^ e)%Q.
Proof. by apply Qpower_0_lt. Qed.

Lemma two_power_le (n m : Z) : n ≤ m → (2 ^ n <= 2 ^ m)%Q.
Proof. intros. by apply Qpower_le_compat_l. Qed.

Lemma two_power_succ (e : Z) : (2 ^ (e + 1) == 2 * 2 ^ e)%Q.
Proof. rewrite Qpower_plus by done. change (2 ^ 1)%Q with 2%Q. lra. Qed.

Lemma two_power_inject (n : Z) : 0 ≤ n → (inject_Z (2 ^ n) == 2 ^ n)%Q.
Proof. intros. by rewrite Zpower_Qpower. Qed.

(** [binade] finds the power of two at or below a positive number. *)
Lemma binade_spec (x : Q) :
  (0 < x)%Q → (2 ^ binade x <= x)%Q ∧ (x < 2 ^ (binade x + 1))%Q.
Proof.
  intros Hx. destruct x as [n d].
  assert (0 < n) as Hn by (unfold Qlt in Hx; simpl in Hx; lia).
  pose proof (Z.log2_spec n Hn) as [Ha1 Ha2].
  pose proof (Z.log2_spec (Z.pos d) eq_refl) as [Hb1 Hb2].
  pose proof (Z.log2_nonneg n) as Ha0.
  pose proof (Z.log2_nonneg (Z.pos d)) as Hb0.
  unfold binade. cbn [Qnum Qden].
  set (a := Z.log2 n) in *. set (b := Z.log2 (Z.pos d)) in *.
  rewrite Zle_Qle, two_power_inject in Ha1, Hb1 by done.
  rewrite Zlt_Qlt, two_power_inject in Ha2, Hb2 by lia.
  change (Z.succ a) with (a + 1) in Ha2. change (Z.succ b) with (b + 1) in Hb2.
  rewrite two_power_succ in Ha2, Hb2.
  pose proof (two_power_pos a) as Hpa. pose proof (two_power_pos b) as Hpb.
  pose proof (two_power_pos (a - b)) as Hpe.
  assert (2 ^ a == 2 ^ (a - b) * 2 ^ b)%Q as Hab.
  { rewrite <- Qpower_plus by done. by replace (a - b + b) with a by lia. }
  assert (n # d == inject_Z n / inject_Z (Z.pos d))%Q as Hq
    by apply Qmake_Qdiv.
  assert (0 < inject_Z (Z.pos d))%Q as Hd
    by (change (inject_Z 0 < inject_Z (Z.pos d))%Q; rewrite <- Zlt_Qlt; lia).
  assert (0 < inject_Z n)%Q as Hn'
    by (change (inject_Z 0 < inject_Z n)%Q; by rewrite <- Zlt_Qlt).
  set (N := inject_Z n) in *. set (D := inject_Z (Z.pos d)) in *.
  set (E := (2 ^ (a - b))%Q) in *. set (A := (2 ^ a)%Q) in *.
  set (B := (2 ^ b)%Q) in *.
  assert (E * D <= 2 * N)%Q as H1.
  { apply Qle_trans with (E * (2 * B))%Q.
    - apply Qmult_le_l; [done|lra].
    - lra. }
  assert (N < 2 * E * D)%Q as H2.
  { assert (E * B <= E * D)%Q by (apply Qmult_le_l; [done|lra]). lra. }
  destruct (Qle_bool E (n # d)) eqn:Hc.
  - apply Qle_bool_iff in Hc. split; [done|].
    fold E. rewrite two_power_succ. fold E. rewrite Hq.
    apply Qlt_shift_div_r; [done|lra].
  - assert (¬ (E <= n # d)%Q) as Hc'
      by (rewrite <- Qle_bool_iff; congruence).
    apply Qnot_le_lt in Hc'.
    assert (E == 2 * 2 ^ (a - b - 1))%Q as HE.
    { unfold E. rewrite <- two_power_succ.
      by replace (a - b - 1 + 1) with (a - b) by lia. }
    split.
    + rewrite Hq. apply Qle_shift_div_l; [done|].
      assert (E * D == 2 * (2 ^ (a - b - 1) * D))%Q as HED
        by (rewrite HE; ring).
      lra.
    + by replace (a - b - 1 + 1) with (a - b) by lia.
Qed.

Lemma binade_mono (x y : Q) :
  (0 < x)%Q → (x <= y)%Q → binade x ≤ binade y.
Proof.
  intros Hx Hxy. assert (0 < y)%Q as Hy by lra.
  destruct (binade_spec x Hx) as [Hlow _].
  destruct (binade_spec y Hy) as [_ Hup].
  assert (2 ^ binade x < 2 ^ (binade y + 1))%Q as Hlt by lra.
  apply Qpower_lt_compat_l_inv in Hlt; [lia|done].
Qed.

(** A normal double is not below the power of two under the number
    it rounds. *)
Lemma binary64_pos_lower (x : Q) :
  (0 < x)%Q → -1074 ≤ binade x - 52 → (2 ^ binade x <= binary64_pos x)%Q.
Proof.
  intros Hx Hq. unfold binary64_pos, quantum. rewrite Z.max_l by lia.
  destruct (binade_spec x Hx) as [Hlow _].
  set (e := binade x) in *.
  assert (2 ^ e == inject_Z (2 ^ 52) * 2 ^ (e - 52))%Q as Hsplit.
  { rewrite two_power_inject by done. rewrite <- Qpower_plus by done.
    by replace (52 + (e - 52)) with e by lia. }
  rewrite Hsplit. apply Qmult_le_r; [apply two_power_pos|].
  rewrite <- Zle_Qle. rewrite <- (round_half_even_Z (2 ^ 52)) at 1.
  apply round_half_even_mono. apply Qle_shift_div_l; [apply two_power_pos|].
  by rewrite <- Hsplit.
Qed.

(** Rounding does not cross a power of two that stands on the grid. *)
Lemma binary64_pos_upper (x : Q) (m : Z) :
  (x <= 2 ^ m)%Q → quantum x ≤ m → (binary64_pos x <= 2 ^ m)%Q.
Proof.
  intros Hx Hq. unfold binary64_pos. set (q := quantum x) in *.
  assert (2 ^ m == inject_Z (2 ^ (m - q)) * 2 ^ q)%Q as Hm.
  { rewrite two_power_inject by lia. rewrite <- Qpower_plus by done.
    by replace (m - q + q) with m by lia. }
  rewrite Hm. apply Qmult_le_r; [apply two_power_pos|].
  rewrite <- Zle_Qle. rewrite <- (round_half_even_Z (2 ^ (m - q))).
  apply round_half_even_mono. apply Qle_shift_div_r; [apply two_power_pos|].
  by rewrite <- Hm.
Qed.

Lemma binary64_pos_nonneg (x : Q) : (0 < x)%Q → (0 <= binary64_pos x)%Q.
Proof.
  intros Hx. unfold binary64_pos. apply Qmult_le_0_compat.
  - change (inject_Z 0 <= inject_Z (round_half_even (x / 2 ^ quantum x)))%Q.
    rewrite <- Zle_Qle. rewrite <- (round_half_even_Z 0).
    apply round_half_even_mono. apply Qle_shift_div_l; [apply two_power_pos|].
    change (inject_Z 0) with 0%Q. lra.
  - apply Qlt_le_weak, two_power_pos.
Qed.

Lemma binary64_pos_mono (x y : Q) :
  (0 < x)%Q → (x <= y)%Q → (binary64_pos x <= binary64_pos y)%Q.
Proof.
  intros Hx Hxy. assert (0 < y)%Q as Hy by lra.
  pose proof (binade_mono x y Hx Hxy) as He.
  destruct (decide (quantum x = quantum y)) as [Heq|Hne].
  - unfold binary64_pos. rewrite Heq.
    apply Qmult_le_r; [apply two_power_pos|].
    rewrite <- Zle_Qle. apply round_half_even_mono.
    apply Qle_shift_div_l; [apply two_power_pos|].
    rewrite Qmult_comm, Qmult_div_r; [done|]. by apply Qpower_not_0.
  - assert (quantum x < quantum y ∧ binade x < binade y
            ∧ -1074 ≤ binade y - 52 ∧ quantum x ≤ binade y)
      as (Hq1 & He1 & Hq2 & Hq3) by (unfold quantum in *; lia).
    apply Qle_trans with (2 ^ binade y)%Q.
    + apply binary64_pos_upper; [|done].
      destruct (binade_spec x Hx) as [_ Hup].
      apply Qle_trans with (2 ^ (binade x + 1))%Q; [lra|].
      apply two_power_le. lia.
    + by apply binary64_pos_lower.
Qed.

(** Rounding to the nearest double keeps the order. *)
Lemma binary64_mono (x y : Q) : (x <= y)%Q → (binary64 x <= binary64 y)%Q.
Proof.
  intros Hxy. unfold binary64.
  destruct (Qcompare_spec x 0) as [Hx|Hx|Hx],
    (Qcompare_spec y 0) as [Hy|Hy|Hy]; try lra.
  - apply binary64_pos_nonneg. lra.
  - pose proof (binary64_pos_nonneg (- x)). lra.
  - pose proof (binary64_pos_mono (- y) (- x)). lra.
  - pose proof (binary64_pos_nonneg (- x)).
    pose proof (binary64_pos_nonneg y). lra.
  - by apply binary64_pos_mono.
Qed.

End rounding.

(** One third, the integers around 2^53 and a number that needs no
    rounding. *)
Example binary64_values :
  Qeq_bool (binary64 (1 / 3)) (6004799503160661 # 2 ^ 54) = true ∧
  Qeq_bool (binary64 (inject_Z (2 ^ 53 + 1))) (inject_Z (2 ^ 53)) = true ∧
  Qeq_bool (binary64 (inject_Z (2 ^ 53 + 3))) (inject_Z (2 ^ 53 + 4)) = true ∧
  Qeq_bool (binary64 (- 7 / 2)) (- 7 # 2) = true.
Proof. by vm_compute. Qed.

(** ** Subsumption reducer *)

Section reducer_properties.
Context `{SizeEstimate} `{Subsumption}.

Lemma benefit_size_ratio_defined (x : IndexBenefit) :
  estimated_size (index x) ≠ 0 → benefit_size_ratio x = Ok (float_ratio x).
Proof.
  intros Hx. unfold benefit_size_ratio, truediv, IndexBenefit_size.
  by rewrite decide_False.
Qed.

(** Entries in the order of their ratios are in the order of the
    doubles computed for them. *)
Lemma float_ratio_mono (a b : IndexBenefit) :
  (ratio b <= ratio a)%Q → (float_ratio b <= float_ratio a)%Q.
Proof. apply binary64_mono. Qed.

(** The inner loop only adds, and only entries it scanned. *)
Lemma scan_lower_elem_of high lower : ∀ removed x,
  x ∈ scan_lower high removed lower → x ∈ removed ∨ x ∈ lower.
Proof.
  unfold scan_lower. induction lower as [|low lower IH]; intros removed x; simpl.
  - by left.
  - intros Hx. apply IH in Hx as [Hx|Hx]; [|right; by right].
    destruct (decide (low ∈ removed)); [by left|].
    destruct (subsumes (index high) (index low)); [|by left].
    apply elem_of_union in Hx as [Hx|Hx]; [by left|].
    apply elem_of_singleton in Hx as ->. right; by left.
Qed.

Lemma scan_lower_mono high lower : ∀ removed,
  removed ⊆ scan_lower high removed lower.
Proof.
  unfold scan_lower. induction lower as [|low lower IH]; intros removed; simpl.
  - done.
  - etrans; [|apply IH].
    destruct (decide (low ∈ removed)); [done|].
    destruct (subsumes (index high) (index low)); set_solver.
Qed.

(** Every scanned entry that [high] subsumes ends up removed. *)
Lemma scan_lower_subsumed high lower : ∀ removed low,
  low ∈ lower → subsumes (index high) (index low) = true →
  low ∈ scan_lower high removed lower.
Proof.
  induction lower as [|y lower IH]; intros removed low Hin Hsub.
  - by apply elem_of_nil in Hin.
  - apply elem_of_cons in Hin as [->|Hin].
    + change (scan_lower high removed (y :: lower))
        with (scan_lower high
                (if decide (y ∈ removed) then removed
                 else if subsumes (index high) (index y)
                      then removed ∪ {[y]} else removed) lower).
      apply scan_lower_mono. rewrite Hsub.
      destruct (decide (y ∈ removed)); set_solver.
    + by apply IH.
Qed.

Lemma scan_all_unfold l : scan_all l = foldl (scan_turn l) ∅ (enumerate l).
Proof. done. Qed.

Lemma scan_turn_mono l removed p : removed ⊆ scan_turn l removed p.
Proof.
  unfold scan_turn.
  destruct (decide (p.2 ∈ removed)); [done|]. apply scan_lower_mono.
Qed.

Lemma scan_turns_mono l ps : ∀ removed,
  removed ⊆ foldl (scan_turn l) removed ps.
Proof.
  induction ps as [|p ps IH]; intros removed; simpl; [done|].
  etrans; [apply scan_turn_mono|apply IH].
Qed.

(** Whatever the outer loop removes stands behind the first place. *)
Lemma scan_turns_elem_of l ps : ∀ removed x,
  x ∈ foldl (scan_turn l) removed ps → x ∈ removed ∨ x ∈ drop 1 l.
Proof.
  induction ps as [|p ps IH]; intros removed x; simpl; [by left|].
  intros Hx. apply IH in Hx as [Hx|Hx]; [|by right].
  unfold scan_turn in Hx. destruct (decide (p.2 ∈ removed)); [by left|].
  apply scan_lower_elem_of in Hx as [Hx|Hx]; [by left|]. right.
  apply list_elem_of_lookup in Hx as [k Hk]. rewrite lookup_drop in Hk.
  apply list_elem_of_lookup. exists (p.1 + k)%nat.
  rewrite lookup_drop, <- Hk. f_equal. lia.
Qed.

Lemma elem_of_enumerate (l : list IndexBenefit) i x :
  (i, x) ∈ enumerate l ↔ l !! i = Some x.
Proof.
  unfold enumerate. rewrite list_elem_of_lookup. split.
  - intros [k Hk]. rewrite list_lookup_imap in Hk.
    destruct (l !! k) eqn:E; simplify_eq/=. done.
  - intros Hi. exists i. rewrite list_lookup_imap, Hi. done.
Qed.

(** A surviving entry has cleared every later entry it subsumes. *)
Lemma scan_all_subsumed (l : list IndexBenefit) i j hi lo :
  (i < j)%nat → l !! i = Some hi → l !! j = Some lo →
  hi ∉ scan_all l → subsumes (index hi) (index lo) = true →
  lo ∈ scan_all l.
Proof.
  intros Hij Hi Hj Hhi Hsub. rewrite scan_all_unfold in *.
  apply elem_of_enumerate, list_elem_of_split in Hi as (ps1 & ps2 & Hps).
  rewrite Hps, foldl_app in *. simpl in *.
  apply scan_turns_mono.
  destruct (decide (hi ∈ foldl (scan_turn l) ∅ ps1)) as [Hin|Hin].
  - destruct Hhi. by apply scan_turns_mono, scan_turn_mono.
  - unfold scan_turn; simpl. rewrite decide_False by done.
    apply scan_lower_subsumed; [|done].
    apply list_elem_of_lookup. exists (j - (i + 1))%nat.
    rewrite lookup_drop. rewrite <- Hj. f_equal. lia.
Qed.

(** Whatever is removed occurs behind the first place. *)
Lemma scan_all_behind_head (l : list IndexBenefit) x :
  x ∈ scan_all l → x ∈ tail l.
Proof.
  intros Hx. rewrite scan_all_unfold in Hx.
  apply scan_turns_elem_of in Hx as [Hx|Hx]; [set_solver|].
  destruct l as [|y l]; [by apply elem_of_nil in Hx|]. done.
Qed.

Lemma scan_all_keeps_head (l : list IndexBenefit) x :
  NoDup l → head l = Some x → x ∉ scan_all l.
Proof.
  intros Hnd Hhd Hx. apply scan_all_behind_head in Hx.
  destruct l as [|y l]; simplify_eq/=.
  by apply NoDup_cons in Hnd as [? _].
Qed.

(** The assertion at line 165 looks at the first two ratios, as
    doubles, and at nothing else. *)
Lemma combine_subsumed_first_pair (a b : IndexBenefit)
    (rest : list IndexBenefit) :
  estimated_size (index a) ≠ 0 → estimated_size (index b) ≠ 0 →
  _combine_subsumed (a :: b :: rest)
  = if Qle_bool (float_ratio b) (float_ratio a)
    then Ok (list_to_set (a :: b :: rest) ∖ scan_all (a :: b :: rest))
    else Err (AssertionError "_combine_subsumed got probably unsorted input").
Proof.
  intros Ha Hb. unfold _combine_subsumed.
  destruct (decide (length (a :: b :: rest) < 2)%nat); [simpl in *; lia|].
  unfold getitem; cbn. by rewrite !benefit_size_ratio_defined by done.
Qed.

Lemma combine_subsumed_sorted_run (l : list IndexBenefit) :
  (2 ≤ length l)%nat → ratio_sorted l →
  _combine_subsumed l = Ok (list_to_set l ∖ scan_all l).
Proof.
  intros Hlen [Hsz Hsorted].
  destruct l as [|a [|b l]]; simpl in *; try lia.
  apply Forall_cons in Hsz as [Ha Hsz]. apply Forall_cons in Hsz as [Hb _].
  rewrite combine_subsumed_first_pair by done.
  apply Sorted_inv in Hsorted as [_ Hab]. apply HdRel_inv in Hab.
  apply float_ratio_mono, Qle_bool_iff in Hab. by rewrite Hab.
Qed.

(** The same for a list in the order of the computed doubles. *)
Lemma combine_subsumed_float_sorted_run (l : list IndexBenefit) :
  (2 ≤ length l)%nat →
  Forall (λ x, estimated_size (index x) ≠ 0) l →
  Sorted (λ a b, (float_ratio b <= float_ratio a)%Q) l →
  _combine_subsumed l = Ok (list_to_set l ∖ scan_all l).
Proof.
  intros Hlen Hsz Hsorted.
  destruct l as [|a [|b l]]; simpl in *; try lia.
  apply Forall_cons in Hsz as [Ha Hsz]. apply Forall_cons in Hsz as [Hb _].
  rewrite combine_subsumed_first_pair by done.
  apply Sorted_inv in Hsorted as [_ Hab]. apply HdRel_inv in Hab.
  apply Qle_bool_iff in Hab. by rewrite Hab.
Qed.

(** C10.  Given a list with fewer than two entries, the reducer returns
    the entries as a set: nothing is removed and no ratio is computed
    or compared, whatever the sizes are. *)
Theorem combine_subsumed_short (index_benefits : list IndexBenefit) :
  (length index_benefits < 2)%nat →
  _combine_subsumed index_benefits = Ok (list_to_set index_benefits).
Proof.
  intros Hlen. unfold _combine_subsumed.
  by destruct (decide (length index_benefits < 2)%nat).
Qed.

(** C9, amended.  The reducer compares the ratios of its first two
    entries only, as the doubles computed for them.  Given at least
    two entries whose first two have sizes other than zero, it fails
    with the assertion error when the first ratio is lower than the
    second; otherwise, and so whenever the two exact ratios are in
    order, it reduces the list as it was given, whatever stands
    behind the first two entries. *)
Theorem combine_subsumed_rejects_first_pair (a b : IndexBenefit)
    (rest : list IndexBenefit) :
  estimated_size (index a) ≠ 0 → estimated_size (index b) ≠ 0 →
  ((float_ratio a < float_ratio b)%Q →
   _combine_subsumed (a :: b :: rest)
   = Err (AssertionError "_combine_subsumed got probably unsorted input")) ∧
  ((float_ratio b <= float_ratio a)%Q →
   _combine_subsumed (a :: b :: rest)
   = Ok (list_to_set (a :: b :: rest) ∖ scan_all (a :: b :: rest))) ∧
  ((ratio b <= ratio a)%Q →
   _combine_subsumed (a :: b :: rest)
   = Ok (list_to_set (a :: b :: rest) ∖ scan_all (a :: b :: rest))).
Proof.
  intros Ha Hb. rewrite combine_subsumed_first_pair by done.
  split; [|split].
  - intros Hlt. destruct (Qle_bool _ _) eqn:E; [|done].
    apply Qle_bool_iff in E. by apply Qlt_not_le in Hlt.
  - intros Hle. apply Qle_bool_iff in Hle. by rewrite Hle.
  - intros Hle. apply float_ratio_mono, Qle_bool_iff in Hle.
    by rewrite Hle.
Qed.

(** C4, amended.  For every list sorted descending by ratio, the
    reducer returns a set that contains the first entry unless that
    entry occurs again further down the list, and no surviving
    entry's index is subsumed by the index of a surviving entry
    standing before it in the list. *)
Theorem combine_subsumed_survivors (index_benefits : list IndexBenefit) :
  ratio_sorted index_benefits →
  ∃ survivors,
    _combine_subsumed index_benefits = Ok survivors ∧
    (∀ x, head index_benefits = Some x → x ∉ tail index_benefits →
          x ∈ survivors) ∧
    (∀ i j hi lo,
       (i < j)%nat →
       index_benefits !! i = Some hi → index_benefits !! j = Some lo →
       hi ∈ survivors → lo ∈ survivors →
       subsumes (index hi) (index lo) = false).
Proof.
  intros Hsorted.
  destruct (decide (length index_benefits < 2)%nat) as [Hlen|Hlen].
  - exists (list_to_set index_benefits). split; [|split].
    + unfold _combine_subsumed. by rewrite decide_True.
    + intros x Hx _. apply elem_of_list_to_set.
      destruct index_benefits; simplify_eq/=. by left.
    + intros i j hi lo Hij Hi Hj _ _.
      apply lookup_lt_Some in Hj. lia.
  - exists (list_to_set index_benefits ∖ scan_all index_benefits).
    split; [|split].
    + apply combine_subsumed_sorted_run; [lia|done].
    + intros x Hx Honce. apply elem_of_difference. split.
      * apply elem_of_list_to_set. destruct index_benefits; simplify_eq/=.
        by left.
      * intros Hgone. by apply Honce, scan_all_behind_head.
    + intros i j hi lo Hij Hi Hj Hhi Hlo.
      apply elem_of_difference in Hhi as [_ Hhi].
      apply elem_of_difference in Hlo as [_ Hlo].
      destruct (subsumes (index hi) (index lo)) eqn:E; [|done].
      destruct Hlo. by eapply scan_all_subsumed.
Qed.

End reducer_properties.

(** ** Candidate generator *)

Section itertools_properties.
Context {A : Type}.
Implicit Types (l p : list A).

Lemma elem_of_selections x rest l :
  (x, rest) ∈ itertools.selections l ↔
  ∃ l1 l2, l = l1 ++ x :: l2 ∧ rest = l1 ++ l2.
Proof.
  revert rest. induction l as [|y l IH]; intros rest; simpl.
  - split; [by intros ?%elem_of_nil|]. by intros ([|??] & ? & ? & _).
  - rewrite elem_of_cons, list_elem_of_fmap. split.
    + intros [?|([z r] & ? & Hzr)]; simplify_eq/=.
      * by exists [], l.
      * apply IH in Hzr as (l1 & l2 & -> & ->). by exists (y :: l1), l2.
    + intros (l1 & l2 & Hl & ->). destruct l1 as [|z l1]; simplify_eq/=.
      * by left.
      * right. exists (x, l1 ++ l2). split; [done|]. apply IH. eauto.
Qed.

(** [itertools.permutations] of a duplicate-free list: the
    duplicate-free sequences of the given length over its elements. *)
Lemma elem_of_permutations r : ∀ l p,
  NoDup l →
  p ∈ itertools.permutations l r ↔ length p = r ∧ NoDup p ∧ p ⊆ l.
Proof.
  induction r as [|r IH]; intros l p Hl; simpl.
  - rewrite list_elem_of_singleton. split.
    + intros ->. split; [done|]. split; [constructor|]. set_solver.
    + intros (Hlen & _). by apply nil_length_inv.
  - rewrite list_elem_of_bind. split.
    + intros ([x rest] & Hp & Hsel). simpl in Hp.
      apply list_elem_of_fmap in Hp as (p' & -> & Hp').
      apply elem_of_selections in Hsel as (l1 & l2 & -> & ->).
      apply NoDup_app in Hl as (Hl1 & Hl12 & Hl2).
      apply NoDup_cons in Hl2 as [Hx Hl2].
      apply IH in Hp' as (Hlen & Hnd & Hsub).
      * split; [simpl; lia|]. split.
        -- apply NoDup_cons. split; [|done]. intros Hin. apply Hsub in Hin.
           apply elem_of_app in Hin as [Hin|Hin]; [|done].
           apply (Hl12 _ Hin). by left.
        -- intros y [->|Hy]%elem_of_cons; [set_solver|].
           apply Hsub in Hy. set_solver.
      * apply NoDup_app. split; [done|]. split; [|done].
        intros y Hy1 Hy2. apply (Hl12 _ Hy1). by right.
    + intros (Hlen & Hnd & Hsub). destruct p as [|x p']; [done|].
      apply NoDup_cons in Hnd as [Hx Hnd].
      assert (x ∈ l) as Hxl by (apply Hsub; by left).
      apply list_elem_of_split in Hxl as (l1 & l2 & ->).
      exists (x, l1 ++ l2). split.
      * simpl. apply list_elem_of_fmap. exists p'. split; [done|].
        apply NoDup_app in Hl as (Hl1 & Hl12 & Hl2).
        apply NoDup_cons in Hl2 as [Hxl2 Hl2].
        apply IH.
        -- apply NoDup_app. split; [done|]. split; [|done].
           intros y Hy1 Hy2. apply (Hl12 _ Hy1). by right.
        -- split; [simpl in Hlen; lia|]. split; [done|].
           intros y Hy. assert (y ∈ l1 ++ x :: l2) as Hyl
             by (apply Hsub; by right).
           assert (y ≠ x) by (by intros ->). set_solver.
      * apply elem_of_selections. eauto.
Qed.

End itertools_properties.

(** Membership in a union accumulated by a loop. *)
Lemma elem_of_foldl_union `{Countable T} {B : Type} (g : B → gset T)
    (ys : list B) : ∀ (acc : gset T) x,
  x ∈ foldl (λ acc y, acc ∪ g y) acc ys ↔ x ∈ acc ∨ ∃ y, y ∈ ys ∧ x ∈ g y.
Proof.
  induction ys as [|y ys IH]; intros acc x; simpl.
  - split; [by left|]. intros [?|(? & ?%elem_of_nil & _)]; done.
  - rewrite IH, elem_of_union. split.
    + intros [[?|?]|(z & ? & ?)]; [by left|right..].
      * exists y. split; [by left|done].
      * exists z. split; [by right|done].
    + intros [?|(z & [->|?]%elem_of_cons & ?)]; [by left; left|by left; right|].
      right. eauto.
Qed.

Section generator_properties.
Context `{Parameters}.

Lemma group_step_lookup d column t :
  group_step d column !! t =
  if decide (table column = t)
  then Some (default ∅ (d !! t) ∪ {[column]})
  else d !! t.
Proof.
  unfold group_step. destruct (decide (table column = t)) as [<-|Hne].
  - rewrite lookup_insert_eq. f_equal. f_equal.
    destruct (decide (is_Some (d !! table column))) as [[s Hs]|Hn].
    + rewrite lookup_total_alt, Hs. done.
    + rewrite lookup_total_insert_eq.
      apply eq_None_not_Some in Hn. by rewrite Hn.
  - rewrite lookup_insert_ne by done.
    destruct (decide (is_Some (d !! table column))); [done|].
    by rewrite lookup_insert_ne.
Qed.

(** After grouping, a table's entry holds exactly the given columns of
    that table, and a table of no given column has no entry. *)
Lemma group_columns (cols : list Column) t :
  match foldl group_step ∅ cols !! t with
  | Some s => ∀ c, c ∈ s ↔ c ∈ cols ∧ table c = t
  | None => ∀ c, c ∈ cols → table c ≠ t
  end.
Proof.
  induction cols as [|column cols IH] using rev_ind.
  - simpl. rewrite lookup_empty. by intros c ?%elem_of_nil.
  - rewrite foldl_app. simpl. rewrite group_step_lookup.
    destruct (decide (table column = t)) as [Heq|Hne].
    + intros c. rewrite elem_of_union, elem_of_singleton, elem_of_app,
        list_elem_of_singleton.
      destruct (foldl group_step ∅ cols !! t) as [s|]; simpl.
      * rewrite IH. naive_solver.
      * split; [|naive_solver].
        intros [Hc | ->]; [by apply elem_of_empty in Hc|]. by split; [right|].
    + destruct (foldl group_step ∅ cols !! t) as [s|].
      * intros c. rewrite IH, elem_of_app, list_elem_of_singleton.
        naive_solver.
      * intros c Hc. apply elem_of_app in Hc as [Hc|Hc]; [by apply IH|].
        by apply list_elem_of_singleton in Hc as ->.
Qed.

(** The loop over the lengths adds to what was collected before. *)
Lemma fold_tables_union (l : list (string * gset Column)) :
  ∀ acc : gset (list Column),
  foldl (λ (acc : gset (list Column)) (tc : string * gset Column),
           foldl (λ (acc : gset (list Column)) index_length,
                    acc ∪ list_to_set
                      (itertools.permutations
                         (elements tc.2) (Z.to_nat index_length)))
                 acc (range 1 (max_index_columns + 1)))
        acc l =
  foldl (λ (acc : gset (list Column)) (tc : string * gset Column),
           acc ∪ foldl (λ (acc : gset (list Column)) index_length,
                          acc ∪ list_to_set
                            (itertools.permutations
                               (elements tc.2) (Z.to_nat index_length)))
                       ∅ (range 1 (max_index_columns + 1)))
        acc l.
Proof.
  induction l as [|tc l IH]; intros acc; [done|].
  simpl. rewrite <- IH. f_equal.
  generalize (range 1 (max_index_columns + 1)). intros r.
  apply set_eq. intros p.
  rewrite elem_of_union, !elem_of_foldl_union. set_solver.
Qed.

Lemma possible_indexes_unfold (query : Query) :
  _possible_indexes query =
  mkIndex <$> elements
    (foldl (λ (acc : gset (list Column)) (tc : string * gset Column),
              acc ∪ foldl (λ (acc : gset (list Column)) index_length,
                             acc ∪ list_to_set
                               (itertools.permutations
                                  (elements tc.2) (Z.to_nat index_length)))
                          ∅ (range 1 (max_index_columns + 1)))
           ∅ (map_to_list (foldl group_step ∅ (columns query)))).
Proof.
  unfold _possible_indexes. f_equal. f_equal. apply fold_tables_union.
Qed.

(** C3.  The candidate generator returns, without repetition, exactly
    the non-empty column sequences of length at most
    [max_index_columns] that have no repeated column and are drawn
    from the query's columns of one table: every ordering of every
    length from 1 to K over each table's indexable columns. *)
Theorem possible_indexes_spec (query : Query) :
  NoDup (_possible_indexes query) ∧
  ∀ i : Index,
    i ∈ _possible_indexes query ↔
    (1 ≤ Z.of_nat (length (index_columns i)) ≤ max_index_columns) ∧
    NoDup (index_columns i) ∧
    (∀ c, c ∈ index_columns i → c ∈ columns query) ∧
    (∀ c c', c ∈ index_columns i → c' ∈ index_columns i →
             table c = table c').
Proof.
  rewrite possible_indexes_unfold. split.
  - apply NoDup_fmap_2; [by intros ?? [=]|]. apply NoDup_elements.
  - intros [p]. simpl. rewrite list_elem_of_fmap. split.
    + intros (p' & [= <-] & Hp). apply elem_of_elements in Hp.
      apply elem_of_foldl_union in Hp as [Hp|([t s] & Hts & Hp)]; [set_solver|].
      apply elem_of_map_to_list in Hts.
      apply elem_of_foldl_union in Hp as [Hp|(n & Hn & Hp)]; [set_solver|].
      simpl in Hp. apply elem_of_list_to_set in Hp.
      apply elem_of_permutations in Hp as (Hlen & Hnd & Hsub);
        [|apply NoDup_elements].
      apply elem_of_seqZ in Hn.
      pose proof (group_columns (columns query) t) as Hgroup.
      rewrite Hts in Hgroup.
      assert (∀ c, c ∈ p → c ∈ columns query ∧ table c = t) as Hin.
      { intros c Hc. apply Hgroup, elem_of_elements, Hsub, Hc. }
      split; [lia|]. split; [done|]. split; [naive_solver|].
      intros c c' Hc Hc'. destruct (Hin c Hc), (Hin c' Hc'). congruence.
    + intros (Hlen & Hnd & Hcols & Htab). exists p. split; [done|].
      apply elem_of_elements.
      destruct p as [|c0 p']; [simpl in Hlen; lia|].
      pose proof (group_columns (columns query) (table c0)) as Hgroup.
      destruct (foldl group_step ∅ (columns query) !! table c0)
        as [s|] eqn:Hs.
      2:{ destruct (Hgroup c0); [|done]. apply Hcols. by left. }
      apply elem_of_foldl_union. right. exists (table c0, s). split.
      { by apply elem_of_map_to_list. }
      apply elem_of_foldl_union. right.
      exists (Z.of_nat (length (c0 :: p'))). split.
      { apply elem_of_seqZ. lia. }
      simpl. apply elem_of_list_to_set.
      apply elem_of_permutations; [apply NoDup_elements|].
      split; [simpl; lia|]. split; [done|].
      intros c Hc. apply elem_of_elements, Hgroup. split; [by apply Hcols|].
      apply Htab; [done|by left].
Qed.

End generator_properties.

(** ** Sorting *)

Section sort_desc_properties.
Context {A K : Type} (geb : K → K → bool).
Hypothesis geb_total : ∀ a b, geb a b = false → geb b a = true.

Let above (p q : K * A) : Prop := geb p.1 q.1 = true.

Lemma insert_desc_Permutation x (l : list (K * A)) :
  insert_desc geb x l ≡ₚ x :: l.
Proof.
  induction l as [|y l IH]; simpl; [done|].
  destruct (geb x.1 y.1); [done|]. rewrite IH. apply Permutation_swap.
Qed.

Lemma sort_desc_Permutation (l : list (K * A)) : sort_desc geb l ≡ₚ l.
Proof.
  induction l as [|x l IH]; simpl; [done|].
  by rewrite insert_desc_Permutation, IH.
Qed.

Lemma insert_desc_HdRel x y (l : list (K * A)) :
  above y x → HdRel above y l → HdRel above y (insert_desc geb x l).
Proof.
  intros Hyx Hyl. destruct l as [|z l]; simpl; [by constructor|].
  destruct (geb x.1 z.1); constructor; [done|].
  by apply HdRel_inv in Hyl.
Qed.

Lemma insert_desc_Sorted x (l : list (K * A)) :
  Sorted above l → Sorted above (insert_desc geb x l).
Proof.
  induction 1 as [|y l Hl IH Hy]; simpl.
  - by repeat constructor.
  - destruct (geb x.1 y.1) eqn:E.
    + constructor; [by constructor|]. by constructor.
    + constructor; [done|]. apply insert_desc_HdRel; [|done].
      by apply geb_total.
Qed.

Lemma sort_desc_Sorted (l : list (K * A)) : Sorted above (sort_desc geb l).
Proof.
  induction l as [|x l IH]; simpl; [constructor|].
  by apply insert_desc_Sorted.
Qed.

(** When every key is the key of its item, the items are sorted
    by their keys. *)
Lemma Sorted_keyed (k : A → K) (l : list (K * A)) :
  Forall (λ p, p.1 = k p.2) l → Sorted above l →
  Sorted (λ a b, geb (k a) (k b) = true) l.*2.
Proof.
  intros Hk Hs. induction Hs as [|p l Hl IH Hp]; simpl; [constructor|].
  apply Forall_cons in Hk as [Hp1 Hk]. constructor; [by apply IH|].
  destruct Hp as [|q l Hpq]; simpl; constructor.
  apply Forall_cons in Hk as [Hq1 _]. unfold above in Hpq. congruence.
Qed.

End sort_desc_properties.

Lemma with_keys_defined {A K : Type} (key : A → result K) (k : A → K)
    (l : list A) :
  Forall (λ x, key x = Ok (k x)) l →
  with_keys key l = Ok ((λ x, (k x, x)) <$> l).
Proof.
  induction 1 as [|x l Hx _ IH]; simpl; [done|].
  rewrite Hx. cbn. rewrite IH. done.
Qed.

(** [sorted(l, reverse=True, key=key)] rearranges [l] into descending
    key order when no key raises. *)
Lemma sorted_reverse_spec {A : Type} (key : A → result Q) (k : A → Q)
    (l : list A) :
  Forall (λ x, key x = Ok (k x)) l →
  ∃ l', sorted_reverse key l = Ok l' ∧ l' ≡ₚ l ∧
        Sorted (λ a b, (k b <= k a)%Q) l'.
Proof.
  intros Hkey. unfold sorted_reverse.
  rewrite (with_keys_defined _ k) by done. cbn.
  set (keyed := (λ x, (k x, x)) <$> l).
  set (geb := λ a b : Q, Qle_bool b a).
  exists (sort_desc geb keyed).*2. split; [done|]. split.
  - rewrite (sort_desc_Permutation geb keyed). unfold keyed.
    rewrite <- list_fmap_compose. by rewrite list_fmap_id.
  - assert (Sorted (λ a b, geb (k a) (k b) = true) (sort_desc geb keyed).*2)
      as Hs.
    { apply Sorted_keyed.
      - rewrite (sort_desc_Permutation geb keyed). unfold keyed. apply Forall_fmap, Forall_forall. done.
      - apply sort_desc_Sorted. intros a b Hab. unfold geb in *.
        apply Qle_bool_iff. destruct (Qlt_le_dec a b) as [Hlt|Hle].
        + by apply Qlt_le_weak.
        + apply Qle_bool_iff in Hle. congruence. }
    rewrite <- (list_fmap_id (sort_desc geb keyed).*2).
    eapply (Sorted_fmap id); [|exact Hs].
    intros a b Hab. by apply Qle_bool_iff.
Qed.

(** In a strongly sorted list an earlier entry is related to every
    later one. *)
Lemma StronglySorted_lookup_lt {A : Type} (R : relation A) (l : list A) :
  StronglySorted R l →
  ∀ i j a b, (i < j)%nat → l !! i = Some a → l !! j = Some b → R a b.
Proof.
  induction 1 as [|x l Hl IH Hx]; intros i j a b Hij Hi Hj.
  - by rewrite lookup_nil in Hi.
  - destruct j as [|j]; [lia|]. simpl in Hj. destruct i as [|i].
    + simplify_eq/=. rewrite Forall_forall in Hx.
      apply Hx. by eapply list_elem_of_lookup_2.
    + simpl in Hi. apply (IH i j); [lia|done..].
Qed.

(** ** Benefit calculator *)

Section benefit_properties.
Context `{SizeEstimate}.

Lemma foldl_snoc_fmap {A B : Type} (f : A → B) (l : list A) : ∀ acc,
  foldl (λ acc x, acc ++ [f x]) acc l = acc ++ (f <$> l).
Proof.
  induction l as [|x l IH]; intros acc; simpl.
  - by rewrite app_nil_r.
  - rewrite IH. by rewrite <- app_assoc.
Qed.

(** The loop over the queries computes the claimed sum. *)
Lemma benefit_of_sum (c : Index) (query_results : gmap Query QueryResult) :
  benefit_of c query_results = benefit_sum c query_results.
Proof.
  unfold benefit_of, benefit_sum.
  generalize (map_to_list query_results). intros l.
  assert (∀ acc,
    foldl (λ benefit (qv : Query * QueryResult),
             if decide (c ∉ recommended_indexes qv.2) then benefit
             else benefit + (cost_without_indexes qv.2
                             - cost_with_recommended_indexes qv.2)) acc l
    = acc + foldr Z.add 0
        ((λ v, cost_without_indexes v - cost_with_recommended_indexes v) <$>
           filter (λ v, c ∈ recommended_indexes v) l.*2)) as Hloop.
  { induction l as [|[q v] l IH]; intros acc; simpl; [lia|].
    rewrite IH, filter_cons. simpl.
    destruct (decide (c ∉ recommended_indexes v)) as [Hn|Hy].
    - by rewrite decide_False.
    - apply dec_stable in Hy. rewrite decide_True by done. simpl.
      by rewrite <- Z.add_assoc. }
  rewrite Hloop. lia.
Qed.

(** C2, amended.  When no candidate has size zero, the benefit
    calculator returns a list that holds one IndexBenefit per
    candidate, each with the benefit summed over exactly the queries
    that recommend its index, in descending order of the benefit/size
    ratios as doubles: every entry's rounded ratio is at least that
    of every entry behind it, so that an entry stands before an entry
    of higher exact ratio only when both ratios round to the same
    double. *)
Theorem calculate_index_benefits_spec (candidates : gset Index)
    (query_results : gmap Query QueryResult) :
  (∀ c, c ∈ candidates → estimated_size c ≠ 0) →
  ∃ l, _calculate_index_benefits candidates query_results = Ok l ∧
       index <$> l ≡ₚ elements candidates ∧
       Forall (λ x, benefit x = benefit_sum (index x) query_results) l ∧
       StronglySorted (λ a b, (float_ratio b <= float_ratio a)%Q) l ∧
       (∀ i j a b, (i < j)%nat → l !! i = Some a → l !! j = Some b →
          (ratio a < ratio b)%Q → float_ratio a == float_ratio b).
Proof.
  intros Hsize. unfold _calculate_index_benefits.
  rewrite foldl_snoc_fmap. simpl.
  set (made := (λ c, mkIndexBenefit c (benefit_of c query_results))
                 <$> elements candidates).
  destruct (sorted_reverse_spec benefit_size_ratio float_ratio made)
    as (l & Hl & Hperm & Hsorted).
  { unfold made. apply Forall_fmap, Forall_forall. intros c Hc. simpl.
    apply benefit_size_ratio_defined. simpl.
    by apply Hsize, elem_of_elements. }
  apply Sorted_StronglySorted in Hsorted;
    [|intros a b c Hab Hbc; by apply Qle_trans with (float_ratio b)].
  exists l. split; [done|]. split; [|split; [|split; [done|]]].
  - rewrite Hperm. unfold made. rewrite <- list_fmap_compose.
    by rewrite list_fmap_id.
  - rewrite Hperm. unfold made. apply Forall_fmap, Forall_forall.
    intros c _. simpl. apply benefit_of_sum.
  - intros i j a b Hij Hi Hj Hlt. apply Qle_antisym.
    + by apply float_ratio_mono, Qlt_le_weak.
    + by apply (StronglySorted_lookup_lt _ _ Hsorted i j).
Qed.

End benefit_properties.

(** ** Cost-oracle adapter *)

Section adapter_properties.
Context `{Parameters} `{DatabaseConnector}.

(** Simulating the candidates names each of them, in order. *)
Lemma simulate_all_indexes (indexes : list Index) :
  ∀ acc : db * list (Index * string),
  (foldl (λ (acc : db * list (Index * string)) index,
            let '(s', hypopg_name) := simulate_index acc.1 index in
            (s', acc.2 ++ [(index, hypopg_name)])) acc indexes).2.*1
  = acc.2.*1 ++ indexes.
Proof.
  induction indexes as [|i indexes IH]; intros acc; simpl.
  - by rewrite app_nil_r.
  - rewrite IH. destruct (simulate_index acc.1 i) as [s' n]. simpl.
    rewrite fmap_app. simpl. by rewrite <- app_assoc.
Qed.

(** The recommended indexes of a query are among its candidates. *)
Lemma recommended_indexes_possible (s : db) (query : Query) i :
  i ∈ (_recommended_indexes s query).2.1 → i ∈ _possible_indexes query.
Proof.
  unfold _recommended_indexes.
  pose proof (simulate_all_indexes (_possible_indexes query) (s, [])) as Hsim.
  destruct (foldl _ _ _) as [s1 named]. simpl in *.
  intros Hi. rewrite <- Hsim.
  apply list_elem_of_fmap in Hi as ([i' n] & -> & Hin).
  apply list_elem_of_filter in Hin as [_ Hin].
  apply list_elem_of_fmap. by exists (i', n).
Qed.

Lemma exploit_query_results acc query :
  (exploit_query acc query).2 =
  (<[query := {| cost_without_indexes := Total_Cost (get_plan acc.1 query);
                 cost_with_recommended_indexes :=
                   (_recommended_indexes acc.1 query).2.2;
                 recommended_indexes :=
                   (_recommended_indexes acc.1 query).2.1 |}]> acc.2.1,
   acc.2.2 ∪ list_to_set (_recommended_indexes acc.1 query).2.1).
Proof.
  unfold exploit_query. destruct acc as [s [query_results index_candidates]].
  simpl. by destruct (_recommended_indexes s query) as [s' [indexes cost]].
Qed.




End adapter_properties.

(** ** The selection as a whole *)

Section best_indexes_properties.
Context `{Parameters} `{SizeEstimate} `{Subsumption} `{DatabaseConnector}
        `{CostEvaluation} `{Random}.

(** C1.  [_calculate_best_indexes] never reaches its greedy loop: once
    the benefit calculator has returned, reading the unbound name
    [indexes_benefits] raises, and an error of the benefit calculator
    is passed on. *)
Theorem calculate_best_indexes_raises (s : db) (workload : Workload)
    (start_time : Z) (readings : list Z) (g : rng) :
  match _calculate_index_benefits
          (_exploit_virtual_indexes s workload).2.2
          (_exploit_virtual_indexes s workload).2.1 with
  | Ok _ =>
      _calculate_best_indexes s workload start_time readings g
      = Err (NameError "indexes_benefits")
  | Err e =>
      _calculate_best_indexes s workload start_time readings g = Err e
  end.
Proof.
  unfold _calculate_best_indexes.
  destruct (_exploit_virtual_indexes s workload)
    as [s' [query_results candidates]]. simpl.
  by destruct (_calculate_index_benefits candidates query_results).
Qed.

End best_indexes_properties.

(** ** Greedy selector *)

Section greedy_properties.
Context `{Parameters}.

Lemma sum_sizes_cons (x : Entry) (l : list Entry) :
  sum_sizes (x :: l) = entry_size x + sum_sizes l.
Proof. done. Qed.

Lemma sum_sizes_app (l1 l2 : list Entry) :
  sum_sizes (l1 ++ l2) = sum_sizes l1 + sum_sizes l2.
Proof.
  induction l1 as [|x l1 IH]; [done|].
  change ((x :: l1) ++ l2) with (x :: (l1 ++ l2)).
  rewrite !sum_sizes_cons, IH. lia.
Qed.

#[global] Instance sum_sizes_Permutation : Proper ((≡ₚ) ==> (=)) sum_sizes.
Proof.
  intros l1 l2 Hp. induction Hp; rewrite ?sum_sizes_cons; lia.
Qed.

Lemma sum_sizes_nonneg (l : list Entry) :
  Forall (λ x, 0 ≤ entry_size x) l → 0 ≤ sum_sizes l.
Proof. induction 1; rewrite ?sum_sizes_cons; [done|lia]. Qed.

Lemma greedy_fill_snoc (l : list Entry) (x : Entry) :
  greedy_fill (l ++ [x]) = greedy_step (greedy_fill l) x.
Proof. unfold greedy_fill. by rewrite foldl_app. Qed.

(** The counter of the greedy loop is the size of what it selected. *)
Lemma greedy_fill_disk_usage (l : list Entry) :
  (greedy_fill l).2 = sum_sizes (greedy_fill l).1.
Proof.
  induction l as [|x l IH] using rev_ind; [done|].
  rewrite greedy_fill_snoc. unfold greedy_step.
  destruct (greedy_fill l) as [selected disk_usage]. simpl in *.
  destruct (decide (disk_usage + entry_size x ≤ disk_constraint)); simpl.
  - rewrite sum_sizes_app. change (sum_sizes [x]) with (entry_size x + 0).
    lia.
  - done.
Qed.

(** A candidate is admitted exactly when it fits beside what was
    admitted before it; a candidate that does not fit changes
    nothing. *)
Lemma greedy_fill_admits (l : list Entry) (x : Entry) :
  (sum_sizes (greedy_fill l).1 + entry_size x ≤ disk_constraint →
   (greedy_fill (l ++ [x])).1 = (greedy_fill l).1 ++ [x]) ∧
  (¬ sum_sizes (greedy_fill l).1 + entry_size x ≤ disk_constraint →
   greedy_fill (l ++ [x]) = greedy_fill l).
Proof.
  rewrite greedy_fill_snoc. pose proof (greedy_fill_disk_usage l) as Hdu.
  unfold greedy_step. destruct (greedy_fill l) as [selected disk_usage].
  simpl in *. subst disk_usage.
  destruct (decide (sum_sizes selected + entry_size x ≤ disk_constraint));
    split; intros; done.
Qed.

(** With a budget that is not negative the greedy selection is within
    the disk constraint, whatever it admitted. *)
Lemma greedy_fill_within_budget (l : list Entry) :
  0 ≤ budget → sum_sizes (greedy_fill l).1 ≤ disk_constraint.
Proof.
  intros Hbudget. induction l as [|x l IH] using rev_ind.
  - unfold disk_constraint. simpl. unfold sum_sizes. simpl. lia.
  - destruct (greedy_fill_admits l x) as [Hadmit Hskip].
    destruct (decide (sum_sizes (greedy_fill l).1 + entry_size x
                      ≤ disk_constraint)) as [Hfit|Hnot].
    + rewrite (Hadmit Hfit), sum_sizes_app.
      change (sum_sizes [x]) with (entry_size x + 0). lia.
    + by rewrite (Hskip Hnot).
Qed.

End greedy_properties.

(** ** Randomized refiner *)

Section refiner_properties.
Context `{Parameters} `{CostEvaluation} `{Random}.

Lemma list_remove_Permutation (x : Entry) (l l' : list Entry) :
  list_remove x l = Ok l' → l ≡ₚ x :: l'.
Proof.
  revert l'. induction l as [|y l IH]; intros l'; simpl; [done|].
  destruct (decide (x = y)) as [->|Hne].
  - by intros [= ->].
  - destruct (list_remove x l) as [r|e]; cbn; [|done].
    intros [= <-]. rewrite (IH r) by done. apply Permutation_swap.
Qed.

Lemma list_remove_total (x : Entry) (l : list Entry) :
  x ∈ l → ∃ l', list_remove x l = Ok l'.
Proof.
  induction l as [|y l IH]; simpl; [by intros ?%elem_of_nil|].
  intros Hx. destruct (decide (x = y)) as [->|Hne]; [by eexists|].
  apply elem_of_cons in Hx as [?|Hx]; [done|].
  destruct (IH Hx) as [r ->]. cbn. by eexists.
Qed.

(** The removal loop moves entries from the selected list to the
    removed list and lowers the counter by their sizes. *)
Lemma remove_loop_spec (positions : list nat) :
  ∀ selected disk_usage removed selected' disk_usage' removed',
  for_each remove_step positions (selected, disk_usage, removed)
  = Ok (selected', disk_usage', removed') →
  ∃ taken, removed' = removed ++ taken ∧
           selected ≡ₚ selected' ++ taken ∧
           disk_usage' = disk_usage - sum_sizes taken.
Proof.
  induction positions as [|p positions IH];
    intros selected disk_usage removed selected' disk_usage' removed'; simpl.
  - intros [= <- <- <-]. exists []. rewrite !app_nil_r.
    split; [done|]. split; [done|]. unfold sum_sizes; simpl. lia.
  - unfold getitem. destruct (selected !! p) as [x|] eqn:Hp; cbn; [|done].
    intros Hrest. apply IH in Hrest as (taken & -> & Hperm & ->).
    exists (x :: taken). split; [by rewrite <- app_assoc|]. split.
    + rewrite (delete_Permutation _ _ _ Hp), Hperm.
      by rewrite Permutation_middle.
    + rewrite sum_sizes_cons. lia.
Qed.

(** Positions in strictly descending order inside the list can all be
    deleted one after the other. *)
Lemma remove_loop_total (positions : list nat) :
  ∀ selected disk_usage removed,
  StronglySorted (λ a b, (b < a)%nat) positions →
  Forall (λ p, (p < length selected)%nat) positions →
  ∃ r, for_each remove_step positions (selected, disk_usage, removed) = Ok r.
Proof.
  induction positions as [|p positions IH];
    intros selected disk_usage removed Hsorted Hin; simpl; [by eexists|].
  apply StronglySorted_inv in Hsorted as [Hsorted Hp].
  apply Forall_cons in Hin as [Hplen Hin].
  unfold getitem. destruct (lookup_lt_is_Some_2 selected p Hplen) as [x Hx].
  rewrite Hx. cbn. apply IH; [done|].
  rewrite length_delete by eauto.
  eapply Forall_impl; [exact Hp|]. simpl. lia.
Qed.

Lemma sorted_reverse_nat_Permutation (l : list nat) :
  sorted_reverse_nat l ≡ₚ l.
Proof.
  unfold sorted_reverse_nat. rewrite sort_desc_Permutation.
  rewrite <- list_fmap_compose. by rewrite list_fmap_id.
Qed.

Lemma sorted_reverse_nat_descending (l : list nat) :
  NoDup l → StronglySorted (λ a b, (b < a)%nat) (sorted_reverse_nat l).
Proof.
  intros Hnd.
  assert (Sorted (λ a b, Nat.leb b a = true) (sorted_reverse_nat l)) as Hs.
  { unfold sorted_reverse_nat.
    apply (Sorted_keyed (λ a b, Nat.leb b a) id).
    - rewrite sort_desc_Permutation. by apply Forall_fmap, Forall_forall.
    - apply (sort_desc_Sorted (λ a b, Nat.leb b a)). intros a b Hab.
      apply Nat.leb_le. apply Nat.leb_gt in Hab. lia. }
  apply Sorted_StronglySorted in Hs.
  2:{ intros a b c Hab Hbc. apply Nat.leb_le in Hab, Hbc.
      apply Nat.leb_le. lia. }
  rewrite <- sorted_reverse_nat_Permutation in Hnd.
  induction Hs as [|a k Hk IH Ha]; [constructor|].
  apply NoDup_cons in Hnd as [Hak Hnd]. constructor; [by apply IH|].
  apply Forall_forall. intros b Hb.
  rewrite Forall_forall in Ha. specialize (Ha b Hb). apply Nat.leb_le in Ha.
  assert (a ≠ b) by (by intros ->). lia.
Qed.

(** The adding loop moves entries from the unused list to the new
    list and raises the counter by their sizes. *)
Lemma add_loop_spec (n : nat) :
  ∀ disk_usage new_selected not_used g disk_usage' new_selected' not_used' g',
  add_loop n disk_usage new_selected not_used g
  = Ok (disk_usage', new_selected', not_used', g') →
  ∃ added, new_selected' = new_selected ++ added ∧
           not_used ≡ₚ added ++ not_used' ∧
           disk_usage' = disk_usage + sum_sizes added.
Proof.
  induction n as [|n IH];
    intros disk_usage new_selected not_used g
           disk_usage' new_selected' not_used' g'; simpl.
  - intros [= <- <- <- <-]. exists []. rewrite app_nil_r.
    split; [done|]. split; [done|]. unfold sum_sizes; simpl. lia.
  - destruct (decide (length (filter _ not_used) = 0%nat)).
    { intros [= <- <- <- <-]. exists []. rewrite app_nil_r.
      split; [done|]. split; [done|]. unfold sum_sizes; simpl. lia. }
    destruct (shuffle _ g) as [candidates g1].
    destruct (getitem candidates 0) as [x|]; cbn; [|done].
    destruct (list_remove x not_used) as [not_used1|] eqn:Hrm; cbn; [|done].
    intros Hrest. apply IH in Hrest as (added & -> & Hperm & ->).
    exists (x :: added). split; [by rewrite <- app_assoc|]. split.
    + rewrite (list_remove_Permutation _ _ _ Hrm), Hperm. done.
    + rewrite sum_sizes_cons. lia.
Qed.

Context `{!RandomSpec}.

(** With a generator that keeps its promises the adding loop ends
    without an error and stays within the disk constraint. *)
Lemma add_loop_total (n : nat) :
  ∀ disk_usage new_selected not_used g,
  ∃ disk_usage' new_selected' not_used' g',
    add_loop n disk_usage new_selected not_used g
    = Ok (disk_usage', new_selected', not_used', g') ∧
    (disk_usage ≤ disk_constraint → disk_usage' ≤ disk_constraint).
Proof.
  induction n as [|n IH]; intros disk_usage new_selected not_used g; simpl.
  - by eexists _, _, _, _.
  - destruct (decide (length (filter _ not_used) = 0%nat)) as [|Hne].
    { by eexists _, _, _, _. }
    pose proof (shuffle_Permutation
                  (filter (λ x, entry_size x ≤ disk_constraint - disk_usage)
                          not_used) g) as Hperm.
    destruct (shuffle _ g) as [candidates g1]. simpl in Hperm.
    destruct candidates as [|x candidates].
    { apply Permutation_length in Hperm. simpl in Hperm. lia. }
    cbn.
    assert (x ∈ filter (λ x, entry_size x ≤ disk_constraint - disk_usage)
                       not_used) as Hx.
    { rewrite <- Hperm. by left. }
    apply list_elem_of_filter in Hx as [Hfit Hx].
    destruct (list_remove_total x not_used Hx) as [not_used1 ->]. cbn.
    destruct (IH (disk_usage + entry_size x) (new_selected ++ [x])
                 not_used1 g1) as (du' & ns' & nu' & g' & -> & Hle).
    eexists _, _, _, _. split; [done|]. intros _. apply Hle. lia.
Qed.

(** What a completed variation attempt looks like: the surviving and
    the removed entries make up the old selection, the added and the
    remaining entries make up the old unused list, and the counter is
    the size of the surviving plus the added entries. *)
Lemma try_variation_spec (st : RefinerState) (t : Tentative) :
  try_variation st = Ok t →
  selected_indexes st ≡ₚ t_selected_indexes t ++ t_removed t ∧
  not_used_indexes st ≡ₚ t_new_selected t ++ t_not_used_indexes t ∧
  t_disk_usage t
  = sum_sizes (t_selected_indexes t) + sum_sizes (t_new_selected t) ∧
  (Forall (λ x, 0 ≤ entry_size x) (selected_indexes st) →
   sum_sizes (selected_indexes st) ≤ disk_constraint →
   t_disk_usage t ≤ disk_constraint).
Proof.
  unfold try_variation, random_randrange.
  destruct (decide (1 < maximum_remove)); cbn; [|done].
  destruct (randrange 1 maximum_remove (generator st)) as [number_removed g0].
  destruct (shuffle (seq 0 (length (selected_indexes st))) g0)
    as [positions g1].
  destruct (for_each remove_step _ _) as [[[sel1 du1] rem1]|] eqn:Hrem;
    cbn; [|done].
  apply remove_loop_spec in Hrem as (taken & -> & Hsel & ->).
  destruct (add_loop_total (Z.to_nat number_removed)
              (sum_sizes (selected_indexes st) - sum_sizes taken) []
              (not_used_indexes st) g1)
    as (du2 & ns2 & nu2 & g2 & Hadd & Hle).
  rewrite Hadd. cbn. intros [= <-]. simpl.
  apply add_loop_spec in Hadd as (added & -> & Hnu & ->). simpl.
  split; [done|]. split; [done|].
  assert (sum_sizes (selected_indexes st)
          = sum_sizes sel1 + sum_sizes taken) as Hsum.
  { by rewrite Hsel, sum_sizes_app. }
  split; [lia|]. intros Hnonneg Hfit. apply Hle.
  assert (0 ≤ sum_sizes taken); [|lia].
  apply sum_sizes_nonneg. rewrite Hsel in Hnonneg.
  by apply Forall_app in Hnonneg as [_ ?].
Qed.

(** A variation attempt raises no error when at least one index may be
    removed. *)
Lemma try_variation_total (st : RefinerState) :
  1 < maximum_remove → ∃ t, try_variation st = Ok t.
Proof.
  intros Hmax. unfold try_variation, random_randrange.
  rewrite decide_True by done. cbn.
  destruct (randrange 1 maximum_remove (generator st)) as [number_removed g0].
  pose proof (shuffle_Permutation
                (seq 0 (length (selected_indexes st))) g0) as Hperm.
  destruct (shuffle (seq 0 (length (selected_indexes st))) g0)
    as [positions g1]. simpl in Hperm.
  destruct (remove_loop_total
              (sorted_reverse_nat (take (Z.to_nat number_removed) positions))
              (selected_indexes st) (sum_sizes (selected_indexes st)) [])
    as [[[sel1 du1] rem1] Hrem].
  { apply sorted_reverse_nat_descending.
    eapply sublist_NoDup; [|apply sublist_take].
    rewrite Hperm. apply NoDup_seq. }
  { rewrite sorted_reverse_nat_Permutation. apply Forall_take.
    rewrite Hperm. apply Forall_forall. intros p Hp.
    apply elem_of_seq in Hp. lia. }
  rewrite Hrem. cbn.
  destruct (add_loop_total (Z.to_nat number_removed) du1 []
              (not_used_indexes st) g1)
    as (du2 & ns2 & nu2 & g2 & -> & _).
  cbn. by eexists.
Qed.

End refiner_properties.

Section refiner_theorems.
Context `{Parameters} `{CostEvaluation} `{Random} `{!RandomSpec}.

Lemma iteration_total (workload : Workload) (st : RefinerState) :
  1 < maximum_remove → ∃ r, iteration workload st = Ok r.
Proof.
  intros Hmax. unfold iteration.
  destruct (try_variation_total st Hmax) as [t ->]. cbn. by eexists.
Qed.

(** One iteration keeps every entry in one of the two lists, lowers
    the cost when it accepts and keeps cost and lists when it rejects,
    and stays within the disk constraint. *)
Lemma iteration_spec (workload : Workload) (st st' : RefinerState)
    (accepted : bool) :
  iteration workload st = Ok (accepted, st') →
  selected_indexes st' ++ not_used_indexes st'
    ≡ₚ selected_indexes st ++ not_used_indexes st ∧
  (if accepted then current_cost st' < current_cost st
   else current_cost st' = current_cost st ∧
        selected_indexes st' ≡ₚ selected_indexes st ∧
        not_used_indexes st' ≡ₚ not_used_indexes st) ∧
  (Forall (λ x, 0 ≤ entry_size x) (selected_indexes st) →
   sum_sizes (selected_indexes st) ≤ disk_constraint →
   sum_sizes (selected_indexes st') ≤ disk_constraint).
Proof.
  unfold iteration. destruct (try_variation st) as [t|] eqn:Ht; cbn; [|done].
  apply try_variation_spec in Ht as (Hsel & Hnu & Hdu & Hfit).
  unfold decide_variation.
  destruct (decide (_ < current_cost st)) as [Hlt|Hge]; intros [= <- <-];
    simpl.
  - split; [|split; [done|]].
    + rewrite Hsel, Hnu.
      rewrite <- !app_assoc. apply Permutation_app_head.
      rewrite (app_assoc (t_new_selected t)). apply Permutation_app_comm.
    + intros Hnonneg Hle. rewrite sum_sizes_app, <- Hdu. by apply Hfit.
  - split; [|split; [split; [done|]|]].
    + rewrite Hsel, Hnu.
      apply Permutation_app_head. apply Permutation_app_comm.
    + split; [done|]. rewrite Hnu. apply Permutation_app_comm.
    + intros _ Hle. by rewrite <- Hsel.
Qed.

(** C7, amended.  An iteration whose evaluated cost is not strictly
    lower than the current cost is undone up to the order of the
    lists: the removed entries are appended to the selected list and
    the added entries to the unused list, so that both lists hold the
    entries they held before the iteration, and the current cost and
    the sum of the sizes of the selection are what they were.  The
    counter [disk_usage] is not restored: it keeps the value of the
    tentative selection, the old sum less the removed plus the added
    sizes. *)
Theorem rejected_variation_is_undone (workload : Workload)
    (st : RefinerState) :
  1 < maximum_remove →
  ∃ t, try_variation st = Ok t ∧
    (¬ _evaluate_workload (t_selected_indexes t) (t_new_selected t) workload
       < current_cost st →
     ∃ st', iteration workload st = Ok (false, st') ∧
       selected_indexes st' = t_selected_indexes t ++ t_removed t ∧
       not_used_indexes st' = t_not_used_indexes t ++ t_new_selected t ∧
       selected_indexes st' ≡ₚ selected_indexes st ∧
       not_used_indexes st' ≡ₚ not_used_indexes st ∧
       current_cost st' = current_cost st ∧
       sum_sizes (selected_indexes st') = sum_sizes (selected_indexes st) ∧
       t_disk_usage t
       = sum_sizes (selected_indexes st) - sum_sizes (t_removed t)
         + sum_sizes (t_new_selected t)).
Proof.
  intros Hmax. destruct (try_variation_total st Hmax) as [t Ht].
  exists t. split; [done|]. intros Hcost.
  assert (iteration workload st
          = Ok (false,
                {| selected_indexes := t_selected_indexes t ++ t_removed t;
                   not_used_indexes :=
                     t_not_used_indexes t ++ t_new_selected t;
                   current_cost := current_cost st;
                   generator := t_generator t |})) as Hit.
  { unfold iteration. rewrite Ht. cbn. unfold decide_variation.
    by rewrite decide_False. }
  eexists. split; [exact Hit|].
  apply iteration_spec in Hit as (_ & (Hc & Hsel & Hnu) & _). simpl in *.
  apply try_variation_spec in Ht as (Hparts & _ & Hdu & _).
  repeat split; try done; [by rewrite Hsel|].
  rewrite Hdu, Hparts, sum_sizes_app. lia.
Qed.

(** The loop raises no error when at least one index may be removed. *)
Lemma while_time_total (workload : Workload) (deadline : Z)
    (readings : list Z) : ∀ st,
  1 < maximum_remove →
  ∃ log, while_time workload deadline readings st = Ok log.
Proof.
  induction readings as [|now readings IH]; intros st Hmax; simpl.
  - by eexists.
  - destruct (decide (deadline > now)); [|by eexists].
    destruct (iteration_total workload st Hmax) as [r ->]. cbn.
    destruct (IH r.2 Hmax) as [rest ->]. cbn. by eexists.
Qed.

Lemma state_before_cons (st : RefinerState) r
    (rest : list (bool * RefinerState)) (k : nat) :
  is_Some (rest !! k) →
  state_before st (r :: rest) (S k) = state_before r.2 rest k.
Proof.
  intros [x Hx]. destruct k as [|k]; [done|]. simpl.
  assert (is_Some (rest !! k)) as [y ->]; [|done].
  apply lookup_lt_is_Some. apply lookup_lt_Some in Hx. lia.
Qed.

(** C8.  Along the refiner's loop the current cost never increases:
    an accepted iteration leaves a strictly lower cost than it found,
    a rejected one leaves the cost it found, and so the costs after
    the successive iterations form a non-increasing sequence. *)
Theorem accepted_costs_decrease (workload : Workload) (deadline : Z)
    (readings : list Z) (st : RefinerState) :
  1 < maximum_remove →
  ∃ log : list (bool * RefinerState),
    while_time workload deadline readings st = Ok log ∧
    (∀ k (r : bool * RefinerState), log !! k = Some r →
       if r.1 then current_cost r.2 < current_cost (state_before st log k)
       else current_cost r.2 = current_cost (state_before st log k)) ∧
    StronglySorted (λ a b, b ≤ a)
      (current_cost st :: (current_cost ∘ snd <$> log)).
Proof.
  intros Hmax. destruct (while_time_total workload deadline readings st Hmax)
    as [log Hlog].
  exists log. split; [done|].
  assert ((∀ k (r : bool * RefinerState), log !! k = Some r →
             if r.1
             then current_cost r.2 < current_cost (state_before st log k)
             else current_cost r.2 = current_cost (state_before st log k)) ∧
          Sorted (λ a b, b ≤ a)
            (current_cost st :: (current_cost ∘ snd <$> log))) as [Hk Hs].
  2:{ split; [done|]. apply Sorted_StronglySorted; [|done].
      intros a b c ??. lia. }
  revert st log Hlog.
  induction readings as [|now readings IH]; intros st log; simpl.
  { intros [= <-]. split; [by intros k r ?|]. by repeat constructor. }
  destruct (decide (deadline > now)).
  2:{ intros [= <-]. split; [by intros k r ?|]. by repeat constructor. }
  destruct (iteration workload st) as [[accepted st1]|] eqn:Hit; cbn; [|done].
  destruct (while_time workload deadline readings st1) as [rest|] eqn:Hrest;
    cbn; [|done].
  intros [= <-]. apply iteration_spec in Hit as (_ & Hcost & _).
  destruct (IH _ _ Hrest) as [IHk IHs]. split.
  - intros [|k] r Hr; simpl in Hr.
    + simplify_eq/=. destruct accepted; [done|]. by destruct Hcost.
    + rewrite state_before_cons by eauto. by apply IHk.
  - simpl. constructor; [done|]. constructor.
    destruct accepted; [lia|]. destruct Hcost as [-> _]. done.
Qed.

(** C6.  The selection stays within the disk constraint.  In the
    greedy loop the counter is the size of the selected list, after
    every admission that size is at most the constraint, and with a
    budget that is not negative so is the size of the selection the
    loop hands on.  In the refiner, when sizes are not negative and the
    selection starts within the constraint, the selection is within the
    constraint after the decision of every iteration. *)
Theorem disk_usage_within_budget :
  (∀ (l : list Entry) (x : Entry),
     (greedy_fill l).2 = sum_sizes (greedy_fill l).1 ∧
     ((greedy_fill l).2 + entry_size x ≤ disk_constraint →
      (greedy_fill (l ++ [x])).1 = (greedy_fill l).1 ++ [x] ∧
      sum_sizes (greedy_fill (l ++ [x])).1 ≤ disk_constraint) ∧
     (0 ≤ budget → sum_sizes (greedy_fill l).1 ≤ disk_constraint)) ∧
  (∀ (workload : Workload) (deadline : Z) (readings : list Z)
     (st : RefinerState),
     1 < maximum_remove →
     Forall (λ x, 0 ≤ entry_size x)
            (selected_indexes st ++ not_used_indexes st) →
     sum_sizes (selected_indexes st) ≤ disk_constraint →
     ∃ log, while_time workload deadline readings st = Ok log ∧
            Forall (λ r, sum_sizes (selected_indexes r.2) ≤ disk_constraint)
                   log).
Proof.
  split.
  - intros l x. pose proof (greedy_fill_disk_usage l) as Hdu.
    split; [done|]. split; [|apply greedy_fill_within_budget].
    intros Hfit. rewrite Hdu in Hfit.
    destruct (greedy_fill_admits l x) as [Hadm _].
    rewrite (Hadm Hfit). split; [done|].
    rewrite sum_sizes_app. change (sum_sizes [x]) with (entry_size x + 0).
    lia.
  - intros workload deadline readings st Hmax Hnonneg Hfit.
    destruct (while_time_total workload deadline readings st Hmax)
      as [log Hlog].
    exists log. split; [done|]. revert st log Hnonneg Hfit Hlog.
    induction readings as [|now readings IH]; intros st log Hnonneg Hfit;
      simpl.
    { by intros [= <-]. }
    destruct (decide (deadline > now)); [|by intros [= <-]].
    destruct (iteration workload st) as [[accepted st1]|] eqn:Hit;
      cbn; [|done].
    destruct (while_time workload deadline readings st1) as [rest|] eqn:Hrest;
      cbn; [|done].
    intros [= <-]. apply iteration_spec in Hit as (Hall & _ & Hstep).
    assert (sum_sizes (selected_indexes st1) ≤ disk_constraint) as Hfit1.
    { apply Hstep; [|done]. by apply Forall_app in Hnonneg as [? _]. }
    constructor; [done|]. apply (IH st1); [|done..].
    by rewrite Hall.
Qed.

End refiner_theorems.

(** ** The theorems at work on the small installation *)

Lemma demo_random_spec : @RandomSpec demo.random.
Proof.
  split.
  - intros a b g Hab. simpl. lia.
  - intros A l g. simpl. destruct (Nat.even g); [done|].
    apply reverse_Permutation.
Qed.

Ltac by_computation := apply (bool_decide_unpack _); vm_compute; exact I.

(** Both sides evaluate to the same value. *)
Ltac same_value :=
  lazymatch goal with |- _ = ?y => vm_cast_no_check (@eq_refl _ y) end.

(** The scenario of one query on the columns a and b of one table with
    at most two columns per index. *)
Example possible_indexes_scenario :
  (list_to_set (@_possible_indexes demo.parameters demo.q1) : gset Index)
  = {[demo.iA; demo.iB; demo.iAB; demo.iBA]}.
Proof. same_value. Qed.

(** The plan that uses the index on (a, b) lowers the cost from 100 to
    10: the benefit of that index is 90. *)
Example calculate_index_benefits_scenario :
  (let r := @_exploit_virtual_indexes demo.parameters demo.connector
              [] demo.workload in
   @_calculate_index_benefits demo.sizes r.2.2 r.2.1)
  = Ok [mkIndexBenefit demo.iAB 90].
Proof. vm_compute. reflexivity. Qed.

(** With a budget of zero the greedy loop selects nothing. *)
Example greedy_fill_budget_zero :
  @greedy_fill (mkParameters 2 0 10 4) [demo.eA; demo.eAB; demo.eB] = ([], 0).
Proof. vm_compute. reflexivity. Qed.

(** The selection on the small installation ends at the unbound name. *)
Example calculate_best_indexes_demo :
  @_calculate_best_indexes demo.parameters demo.sizes prefix_subsumes
    demo.connector demo.evaluation demo.random
    [] demo.workload 0 [1; 2; 11] 0%nat
  = Err (NameError "indexes_benefits").
Proof. vm_compute. reflexivity. Qed.

(** C10 on a list of one entry. *)
Lemma combine_subsumed_short_witness :
  @_combine_subsumed demo.sizes prefix_subsumes [mkIndexBenefit demo.iA 3]
  = Ok (list_to_set [mkIndexBenefit demo.iA 3]).
Proof.
  apply (@combine_subsumed_short demo.sizes prefix_subsumes [mkIndexBenefit demo.iA 3]).
  simpl. lia.
Defined.

(** C9: a list of three entries that is not in descending order of
    ratio, neither of the exact ratios nor of the doubles, passes the
    reducer, because its first two entries are in order. *)
Lemma combine_subsumed_unsorted_counterexample :
  let l := [mkIndexBenefit demo.iA 3; mkIndexBenefit demo.iB 1;
            mkIndexBenefit demo.iBA 4] in
  (2 ≤ length l)%nat ∧ ¬ @ratio_sorted demo.sizes l ∧
  ¬ Sorted (λ a b, (@float_ratio demo.sizes b
                    <= @float_ratio demo.sizes a)%Q) l ∧
  @_combine_subsumed demo.sizes prefix_subsumes l = Ok (list_to_set l).
Proof.
  split; [simpl; lia|]. split; [|split].
  - intros [_ Hs]. apply Sorted_inv in Hs as [Hs _].
    apply Sorted_inv in Hs as [_ Hs]. apply HdRel_inv in Hs.
    vm_compute in Hs. by apply Hs.
  - intros Hs. apply Sorted_inv in Hs as [Hs _].
    apply Sorted_inv in Hs as [_ Hs]. apply HdRel_inv in Hs.
    vm_compute in Hs. by apply Hs.
  - same_value.
Qed.

(** C9, amended, on a list whose first two entries are out of order
    and on the same list with these two exchanged. *)
Lemma combine_subsumed_rejects_first_pair_witness :
  @_combine_subsumed demo.sizes prefix_subsumes
    [mkIndexBenefit demo.iB 1; mkIndexBenefit demo.iA 3;
     mkIndexBenefit demo.iBA 4]
  = Err (AssertionError "_combine_subsumed got probably unsorted input") ∧
  ∃ survivors,
    @_combine_subsumed demo.sizes prefix_subsumes
      [mkIndexBenefit demo.iA 3; mkIndexBenefit demo.iB 1;
       mkIndexBenefit demo.iBA 4] = Ok survivors.
Proof.
  split.
  - apply (@combine_subsumed_rejects_first_pair demo.sizes prefix_subsumes
             (mkIndexBenefit demo.iB 1) (mkIndexBenefit demo.iA 3)
             [mkIndexBenefit demo.iBA 4]).
    + vm_compute. discriminate.
    + vm_compute. discriminate.
    + vm_compute. reflexivity.
  - eexists.
    apply (@combine_subsumed_rejects_first_pair demo.sizes prefix_subsumes
             (mkIndexBenefit demo.iA 3) (mkIndexBenefit demo.iB 1)
             [mkIndexBenefit demo.iBA 4]).
    + vm_compute. discriminate.
    + vm_compute. discriminate.
    + vm_compute. discriminate.
Defined.

(** Over the size 1 the benefits 2^53 and 2^53 + 1 make the same
    double: the assertion holds although the second ratio is the
    higher one. *)
Example combine_subsumed_equal_doubles :
  let sizes : SizeEstimate := λ _, 1 in
  let a := mkIndexBenefit demo.iA (2 ^ 53) in
  let b := mkIndexBenefit demo.iB (2 ^ 53 + 1) in
  (@ratio sizes a < @ratio sizes b)%Q ∧
  @_combine_subsumed sizes prefix_subsumes [a; b] = Ok (list_to_set [a; b]).
Proof. split; [by vm_compute|same_value]. Qed.

(** C4: the index on (a) has the higher ratio and survives beside the
    index on (a, b), which subsumes it; and when the first entry occurs
    again behind an entry that subsumes it, it is removed altogether. *)
Lemma combine_subsumed_survivors_counterexample :
  (let l := [mkIndexBenefit demo.iA 10; mkIndexBenefit demo.iAB 5] in
   @ratio_sorted demo.sizes l ∧
   ∃ survivors, @_combine_subsumed demo.sizes prefix_subsumes l = Ok survivors ∧
     mkIndexBenefit demo.iA 10 ∈ survivors ∧
     mkIndexBenefit demo.iAB 5 ∈ survivors ∧
     mkIndexBenefit demo.iA 10 ≠ mkIndexBenefit demo.iAB 5 ∧
     prefix_subsumes demo.iAB demo.iA = true) ∧
  (let l := [mkIndexBenefit demo.iA 10; mkIndexBenefit demo.iAB 20;
             mkIndexBenefit demo.iA 10] in
   @ratio_sorted demo.sizes l ∧
   ∃ survivors, @_combine_subsumed demo.sizes prefix_subsumes l = Ok survivors ∧
     mkIndexBenefit demo.iA 10 ∉ survivors).
Proof.
  split.
  - split.
    + split; repeat constructor; vm_compute; discriminate.
    + exists (list_to_set [mkIndexBenefit demo.iA 10; mkIndexBenefit demo.iAB 5]).
      split; [same_value|].
      split; [by_computation|]. split; [by_computation|].
      split; [discriminate|]. reflexivity.
  - split.
    + split; repeat constructor; vm_compute; discriminate.
    + exists {[mkIndexBenefit demo.iAB 20]}. split; [same_value|].
      by_computation.
Qed.

(** C4, amended, on the sorted list (a, b) before (a): the entry on (a)
    is removed. *)
Lemma combine_subsumed_survivors_witness :
  ∃ survivors,
    @_combine_subsumed demo.sizes prefix_subsumes
      [mkIndexBenefit demo.iAB 50; mkIndexBenefit demo.iA 5] = Ok survivors ∧
    mkIndexBenefit demo.iAB 50 ∈ survivors ∧
    mkIndexBenefit demo.iA 5 ∉ survivors.
Proof.
  destruct (@combine_subsumed_survivors demo.sizes prefix_subsumes
              [mkIndexBenefit demo.iAB 50; mkIndexBenefit demo.iA 5])
    as (survivors & Hrun & Hhead & Hpairs).
  - split; repeat constructor; vm_compute; discriminate.
  - exists survivors. split; [done|].
    assert (mkIndexBenefit demo.iAB 50 ∈ survivors) as Hin
      by (apply Hhead; [done|by_computation]).
    split; [done|]. intros Hlow.
    specialize (Hpairs 0%nat 1%nat _ _ (Nat.lt_0_1) eq_refl eq_refl Hin Hlow).
    vm_compute in Hpairs. discriminate.
Defined.


(** C2: over the size 1 the benefits 2^53 and 2^53 + 1 make the same
    double.  The sort then leaves the two entries in the order in
    which the candidate set hands over their indexes, whichever of
    them has the higher benefit: for one of the two ways of giving
    the benefits to the indexes, the entry of the lower ratio comes
    first. *)
Lemma calculate_index_benefits_rounding_counterexample :
  let sizes : SizeEstimate := λ _, 1 in
  let candidates : gset Index := {[demo.iA; demo.iB]} in
  let results (x y : Z) : gmap Query QueryResult :=
    {[ mkQuery 1 [demo.A] := mkQueryResult x 0 [demo.iA];
       mkQuery 2 [demo.B] := mkQueryResult y 0 [demo.iB] ]} in
  ∃ l1 l2,
    @_calculate_index_benefits sizes candidates
      (results (2 ^ 53) (2 ^ 53 + 1)) = Ok l1 ∧
    @_calculate_index_benefits sizes candidates
      (results (2 ^ 53 + 1) (2 ^ 53)) = Ok l2 ∧
    index <$> l1 = index <$> l2 ∧
    benefit <$> l1 = [2 ^ 53 + 1; 2 ^ 53] ∧
    benefit <$> l2 = [2 ^ 53; 2 ^ 53 + 1] ∧
    ¬ Sorted (λ a b, (@ratio sizes b <= @ratio sizes a)%Q) l2.
Proof.
  exists [mkIndexBenefit demo.iB (2 ^ 53 + 1); mkIndexBenefit demo.iA (2 ^ 53)],
    [mkIndexBenefit demo.iB (2 ^ 53); mkIndexBenefit demo.iA (2 ^ 53 + 1)].
  split; [by vm_compute|]. split; [by vm_compute|].
  split; [done|]. split; [done|]. split; [done|].
  intros Hs. apply Sorted_inv in Hs as [_ Hs]. apply HdRel_inv in Hs.
  vm_compute in Hs. by apply Hs.
Qed.

(** C2, amended, on the results of the small installation. *)
Lemma calculate_index_benefits_spec_witness :
  let query_results :=
    (@_exploit_virtual_indexes demo.parameters demo.connector
       [] demo.workload).2.1 in
  let candidates : gset Index := {[demo.iAB; demo.iA]} in
  ∃ l, @_calculate_index_benefits demo.sizes candidates query_results = Ok l ∧
       index <$> l ≡ₚ elements candidates ∧
       Forall (λ x, benefit x = benefit_sum (index x) query_results) l ∧
       StronglySorted (λ a b, (@float_ratio demo.sizes b
                               <= @float_ratio demo.sizes a)%Q) l.
Proof.
  intros query_results candidates.
  destruct (@calculate_index_benefits_spec demo.sizes candidates
              query_results) as (l & Hrun & Hone & Hsum & Hsorted & _).
  - intros c Hc. apply elem_of_union in Hc as [Hc|Hc];
      apply elem_of_singleton in Hc as ->; vm_compute; discriminate.
  - exists l. split; [exact Hrun|]. split; [exact Hone|].
    split; [exact Hsum|exact Hsorted].
Defined.

(** C7: the iteration removes the first of two selected entries,
    finds nothing that fits, and appends the entry behind the other
    one; the counter is left at the size of the one entry that had
    stayed. *)
Lemma rejected_variation_counterexample :
  let st := @mkRefinerState demo.random [demo.eA; demo.eB]
              [demo.eAB; demo.eBA] 100 1%nat in
  ∃ t st',
    @try_variation demo.parameters demo.random st = Ok t ∧
    @iteration demo.parameters demo.evaluation demo.random
      demo.workload st = Ok (false, st') ∧
    selected_indexes st = [demo.eA; demo.eB] ∧
    selected_indexes st' = [demo.eB; demo.eA] ∧
    sum_sizes (selected_indexes st) = 800000 ∧
    t_disk_usage t = 400000.
Proof.
  eexists (@mkTentative demo.random [demo.eB] [demo.eA] []
             [demo.eAB; demo.eBA] 400000 3%nat),
    (@mkRefinerState demo.random [demo.eB; demo.eA]
       [demo.eAB; demo.eBA] 100 3%nat).
  repeat split; vm_compute; reflexivity.
Qed.

(** C7, amended, on a full selection: the iteration removes one
    entry, finds nothing that fits, and puts the entry back. *)
Lemma rejected_variation_is_undone_witness :
  ∃ st', @iteration demo.parameters demo.evaluation demo.random
           demo.workload demo.full = Ok (false, st') ∧
         selected_indexes st' ≡ₚ selected_indexes demo.full ∧
         not_used_indexes st' ≡ₚ not_used_indexes demo.full ∧
         current_cost st' = current_cost demo.full ∧
         sum_sizes (selected_indexes st') = sum_sizes (selected_indexes demo.full).
Proof.
  destruct (@rejected_variation_is_undone demo.parameters demo.evaluation
              demo.random demo_random_spec demo.workload demo.full)
    as (t & Ht & Hrejected).
  - vm_compute. reflexivity.
  - vm_compute in Ht. injection Ht as <-.
    destruct Hrejected as (st' & Hit & _ & _ & Hsel & Hnu & Hcost & Hsum & _).
    + vm_compute. discriminate.
    + exists st'. done.
Defined.

(** C8 on a run of two iterations: the first is accepted and lowers the
    cost from 100 to 10, the second is rejected. *)
Lemma accepted_costs_decrease_witness :
  ∃ log : list (bool * @RefinerState demo.random),
    @while_time demo.parameters demo.evaluation demo.random
      demo.workload 10 [1; 2; 11] demo.start = Ok log ∧
    (∀ k (r : bool * RefinerState), log !! k = Some r →
       if r.1
       then current_cost r.2 < current_cost (state_before demo.start log k)
       else current_cost r.2 = current_cost (state_before demo.start log k)) ∧
    StronglySorted (λ a b, b ≤ a)
      (current_cost demo.start :: (current_cost ∘ snd <$> log)).
Proof.
  apply (@accepted_costs_decrease demo.parameters demo.evaluation demo.random
           demo_random_spec demo.workload 10 [1; 2; 11] demo.start).
  vm_compute. reflexivity.
Defined.

(** C6 on the small installation: the greedy loop admits the second
    small entry, and the refiner's run stays within the constraint. *)
Lemma disk_usage_within_budget_witness :
  sum_sizes (@greedy_fill demo.parameters [demo.eA; demo.eB]).1
    ≤ @disk_constraint demo.parameters ∧
  ∃ log, @while_time demo.parameters demo.evaluation demo.random
           demo.workload 10 [1; 2; 11] demo.start = Ok log ∧
         Forall (λ r, sum_sizes (selected_indexes r.2)
                      ≤ @disk_constraint demo.parameters) log.
Proof.
  destruct (@disk_usage_within_budget demo.parameters demo.evaluation
              demo.random demo_random_spec) as [Hgreedy Hrefiner].
  split.
  - destruct (Hgreedy [demo.eA] demo.eB) as (_ & Hadmit & _).
    apply Hadmit. vm_compute. discriminate.
  - apply Hrefiner.
    + vm_compute. reflexivity.
    + repeat constructor; vm_compute; discriminate.
    + vm_compute. discriminate.
Defined.

(** * Further properties of the code *)

(** ** Greedy loop *)

Section greedy_extras.
Context `{Parameters}.

(** X1.  The greedy loop selects its entries in the order of the list
    it walks: the selection is a sublist of that list. *)
Theorem greedy_fill_sublist (indexes_benefits : list Entry) :
  (greedy_fill indexes_benefits).1 `sublist_of` indexes_benefits.
Proof.
  induction indexes_benefits as [|x l IH] using rev_ind; [done|].
  destruct (greedy_fill_admits l x) as [Hadmit Hskip].
  destruct (decide (sum_sizes (greedy_fill l).1 + entry_size x
                    ≤ disk_constraint)) as [Hfit|Hnot].
  - rewrite (Hadmit Hfit). by apply sublist_app.
  - rewrite (Hskip Hnot). by apply sublist_inserts_r.
Qed.

(** The greedy loop selects entries of the list, none more often than
    the list holds it. *)
Lemma greedy_fill_elements (indexes_benefits : list Entry) :
  (greedy_fill indexes_benefits).1 ⊆ indexes_benefits ∧
  (NoDup indexes_benefits → NoDup (greedy_fill indexes_benefits).1).
Proof.
  induction indexes_benefits as [|x l [IHsub IHnd]] using rev_ind.
  { split; [done|]. intros _. constructor. }
  destruct (greedy_fill_admits l x) as [Hadmit Hskip].
  destruct (decide (sum_sizes (greedy_fill l).1 + entry_size x
                    ≤ disk_constraint)) as [Hfit|Hnot].
  - rewrite (Hadmit Hfit). split.
    + intros y [Hy|Hy]%elem_of_app; apply elem_of_app;
        [left; by apply IHsub|by right].
    + intros (Hl & Hfresh & Hx)%NoDup_app. apply NoDup_app.
      split; [by apply IHnd|]. split; [|done].
      intros y Hy. apply Hfresh. by apply IHsub.
  - rewrite (Hskip Hnot). split.
    + intros y Hy. apply elem_of_app. left. by apply IHsub.
    + intros (Hl & _)%NoDup_app. by apply IHnd.
Qed.

(** X2.  When no size is negative, the greedy selection cannot be
    extended: an entry of the list that was not selected does not fit
    beside the final selection. *)
Theorem greedy_fill_maximal (indexes_benefits : list Entry) (x : Entry) :
  Forall (λ y, 0 ≤ entry_size y) indexes_benefits →
  x ∈ indexes_benefits → x ∉ (greedy_fill indexes_benefits).1 →
  disk_constraint < sum_sizes (greedy_fill indexes_benefits).1 + entry_size x.
Proof.
  induction indexes_benefits as [|y l IH] using rev_ind;
    intros Hnonneg Hin Hout; [by apply elem_of_nil in Hin|].
  apply Forall_app in Hnonneg as [Hl Hy]. apply Forall_cons in Hy as [Hy _].
  destruct (greedy_fill_admits l y) as [Hadmit Hskip].
  destruct (decide (sum_sizes (greedy_fill l).1 + entry_size y
                    ≤ disk_constraint)) as [Hfit|Hnot].
  - rewrite (Hadmit Hfit) in *. rewrite sum_sizes_app.
    change (sum_sizes [y]) with (entry_size y + 0).
    apply not_elem_of_app in Hout as [Hout Hxy].
    apply elem_of_app in Hin as [Hin|Hin]; [|done].
    specialize (IH Hl Hin Hout). lia.
  - rewrite (Hskip Hnot) in *.
    apply elem_of_app in Hin as [Hin|Hin]; [by apply IH|].
    apply list_elem_of_singleton in Hin as ->. lia.
Qed.

(** X3.  When every entry alone exceeds the disk constraint, the
    greedy loop selects nothing and its counter stays at zero. *)
Theorem greedy_fill_nothing_fits (indexes_benefits : list Entry) :
  Forall (λ x, disk_constraint < entry_size x) indexes_benefits →
  greedy_fill indexes_benefits = ([], 0).
Proof.
  induction indexes_benefits as [|x l IH] using rev_ind; intros Hbig; [done|].
  apply Forall_app in Hbig as [Hl Hx]. apply Forall_cons in Hx as [Hx _].
  rewrite greedy_fill_snoc, (IH Hl). unfold greedy_step.
  rewrite decide_False by lia. done.
Qed.

(** X4.  When no size is negative and the whole list fits into the disk
    constraint, the greedy loop selects the whole list. *)
Theorem greedy_fill_everything_fits (indexes_benefits : list Entry) :
  Forall (λ x, 0 ≤ entry_size x) indexes_benefits →
  sum_sizes indexes_benefits ≤ disk_constraint →
  greedy_fill indexes_benefits = (indexes_benefits, sum_sizes indexes_benefits).
Proof.
  induction indexes_benefits as [|x l IH] using rev_ind;
    intros Hnonneg Hfit; [done|].
  apply Forall_app in Hnonneg as [Hl Hx]. apply Forall_cons in Hx as [Hx _].
  rewrite sum_sizes_app in *. change (sum_sizes [x]) with (entry_size x + 0) in *.
  rewrite greedy_fill_snoc, (IH Hl) by lia. unfold greedy_step.
  rewrite decide_True by lia. f_equal. lia.
Qed.

End greedy_extras.

Lemma greedy_fill_maximal_witness :
  @disk_constraint demo.parameters
  < sum_sizes (@greedy_fill demo.parameters
                 [demo.eA; demo.eAB; demo.eB]).1 + entry_size demo.eAB.
Proof.
  apply (@greedy_fill_maximal demo.parameters
           [demo.eA; demo.eAB; demo.eB] demo.eAB).
  - repeat constructor; vm_compute; discriminate.
  - by_computation.
  - by_computation.
Defined.

Lemma greedy_fill_nothing_fits_witness :
  @greedy_fill (mkParameters 2 0 10 4) [demo.eA; demo.eAB] = ([], 0).
Proof.
  apply (@greedy_fill_nothing_fits (mkParameters 2 0 10 4)
           [demo.eA; demo.eAB]).
  repeat constructor; vm_compute; reflexivity.
Defined.

Lemma greedy_fill_everything_fits_witness :
  @greedy_fill demo.parameters [demo.eA; demo.eB]
  = ([demo.eA; demo.eB], sum_sizes [demo.eA; demo.eB]).
Proof.
  apply (@greedy_fill_everything_fits demo.parameters [demo.eA; demo.eB]).
  - repeat constructor; vm_compute; discriminate.
  - vm_compute. discriminate.
Defined.

(** ** Randomized refiner *)

Section refiner_start.
Context `{Parameters} `{CostEvaluation} `{Random}.

(** A duplicate-free list is made up of a selection from it and of
    what the selection leaves. *)
Lemma selection_and_rest (selected l : list Entry) :
  NoDup l → NoDup selected → selected ⊆ l →
  selected ++ filter (λ x, x ∉ selected) l ≡ₚ l.
Proof.
  intros Hnd Hsel Hsub. apply NoDup_Permutation; [|done|].
  - apply NoDup_app. split; [done|]. split; [|by apply NoDup_filter].
    intros x Hx Hf. by apply list_elem_of_filter in Hf as [Hf _].
  - intros x. rewrite elem_of_app, list_elem_of_filter. split.
    + intros [Hx|[_ Hx]]; [by apply Hsub|done].
    + intros Hx. destruct (decide (x ∈ selected)); [by left|by right].
Qed.

(** X5.  The refiner starts from a partition of the candidate list:
    when the list and the selection have no repeated entry and the
    selection is taken from the list, the selected and the unused
    entries together are the entries of the list. *)
Theorem initial_state_partition (selected indexes_benefits : list Entry)
    (workload : Workload) (g : rng) :
  NoDup indexes_benefits → NoDup selected → selected ⊆ indexes_benefits →
  selected_indexes (initial_state selected indexes_benefits workload g)
    ++ not_used_indexes (initial_state selected indexes_benefits workload g)
  ≡ₚ indexes_benefits.
Proof.
  intros Hnd Hsel Hsub. unfold initial_state. simpl.
  by apply selection_and_rest.
Qed.

(** X6.  When the first reading of the clock is not before the
    deadline, the refiner runs no iteration and leaves the selection as
    it is, whatever the other parameters are. *)
Theorem try_variations_out_of_time (selected indexes_benefits : list Entry)
    (disk_usage : Z) (workload : Workload) (start_time now : Z)
    (readings : list Z) (g : rng) :
  start_time + seconds_limit ≤ now →
  _try_variations selected indexes_benefits disk_usage workload start_time
                  (now :: readings) g
  = Ok selected.
Proof.
  intros Hlate. unfold _try_variations, _try_variations_log. simpl.
  rewrite decide_False by lia. done.
Qed.

(** X7.  When [maximum_remove] is at most one and the first reading of
    the clock is before the deadline, the refiner fails: drawing the
    number of indexes to remove from an empty range raises
    [ValueError]. *)
Theorem try_variations_empty_range (selected indexes_benefits : list Entry)
    (disk_usage : Z) (workload : Workload) (start_time now : Z)
    (readings : list Z) (g : rng) :
  maximum_remove ≤ 1 → now < start_time + seconds_limit →
  _try_variations selected indexes_benefits disk_usage workload start_time
                  (now :: readings) g
  = Err ValueError.
Proof.
  intros Hmax Hearly. unfold _try_variations, _try_variations_log. simpl.
  rewrite decide_True by lia.
  unfold iteration, try_variation, random_randrange.
  rewrite decide_False by lia. done.
Qed.

Lemma remove_loop_length (positions : list nat) :
  ∀ selected disk_usage removed selected' disk_usage' removed',
  for_each remove_step positions (selected, disk_usage, removed)
  = Ok (selected', disk_usage', removed') →
  length removed' = (length removed + length positions)%nat.
Proof.
  induction positions as [|p positions IH];
    intros selected disk_usage removed selected' disk_usage' removed'; simpl.
  - intros [= <- <- <-]. lia.
  - unfold getitem. destruct (selected !! p) as [x|]; cbn; [|done].
    intros Hrest. apply IH in Hrest. rewrite length_app in Hrest.
    simpl in Hrest. lia.
Qed.

Lemma add_loop_length (n : nat) :
  ∀ disk_usage new_selected not_used g disk_usage' new_selected' not_used' g',
  add_loop n disk_usage new_selected not_used g
  = Ok (disk_usage', new_selected', not_used', g') →
  (length new_selected' ≤ length new_selected + n)%nat.
Proof.
  induction n as [|n IH];
    intros disk_usage new_selected not_used g
           disk_usage' new_selected' not_used' g'; simpl.
  - intros [= <- <- <- <-]. lia.
  - destruct (decide (length (filter _ not_used) = 0%nat)).
    { intros [= <- <- <- <-]. lia. }
    destruct (shuffle _ g) as [candidates g1].
    destruct (getitem candidates 0) as [x|]; cbn; [|done].
    destruct (list_remove x not_used) as [not_used1|]; cbn; [|done].
    intros Hrest. apply IH in Hrest. rewrite length_app in Hrest.
    simpl in Hrest. lia.
Qed.

(** What holds of every state is kept along the loop when each
    iteration keeps it. *)
Lemma while_time_invariant (P : RefinerState → Prop) (workload : Workload)
    (deadline : Z) (readings : list Z) :
  (∀ st accepted st',
     P st → iteration workload st = Ok (accepted, st') → P st') →
  ∀ st log, P st → while_time workload deadline readings st = Ok log →
            Forall (λ r, P r.2) log.
Proof.
  intros Hstep. induction readings as [|now readings IH]; intros st log Hst;
    simpl.
  { by intros [= <-]. }
  destruct (decide (deadline > now)); [|by intros [= <-]].
  destruct (iteration workload st) as [[accepted st1]|] eqn:Hit; cbn; [|done].
  destruct (while_time workload deadline readings st1) as [rest|] eqn:Hrest;
    cbn; [|done].
  intros [= <-]. assert (P st1) as Hst1 by eauto.
  constructor; [done|]. by eapply IH.
Qed.

Lemma final_selection_invariant (P : list Entry → Prop) (start : list Entry)
    (log : list (bool * RefinerState)) :
  P start → Forall (λ r, P (selected_indexes r.2)) log →
  P (final_selection start log).
Proof.
  intros Hstart Hlog. unfold final_selection.
  destruct (last log) as [r|] eqn:Hlast; [|done].
  apply last_Some in Hlast as [log' ->].
  apply Forall_app in Hlog as [_ Hr]. by apply Forall_cons in Hr as [Hr _].
Qed.

End refiner_start.

Lemma initial_state_partition_witness :
  selected_indexes (@initial_state demo.evaluation demo.random
                      [demo.eA; demo.eB]
                      [demo.eA; demo.eAB; demo.eB; demo.eBA] demo.workload 0%nat)
    ++ not_used_indexes (@initial_state demo.evaluation demo.random
                      [demo.eA; demo.eB]
                      [demo.eA; demo.eAB; demo.eB; demo.eBA] demo.workload 0%nat)
  ≡ₚ [demo.eA; demo.eAB; demo.eB; demo.eBA].
Proof.
  apply (@initial_state_partition demo.evaluation demo.random).
  - by_computation.
  - by_computation.
  - intros x Hx. apply elem_of_cons in Hx as [->|Hx]; [by_computation|].
    apply list_elem_of_singleton in Hx as ->. by_computation.
Defined.

Lemma try_variations_out_of_time_witness :
  @_try_variations (mkParameters 2 1 0 1) demo.evaluation demo.random
    [demo.eA] [demo.eA; demo.eAB] 400000 demo.workload 5 [5; 6] 0%nat
  = Ok [demo.eA].
Proof.
  apply (@try_variations_out_of_time (mkParameters 2 1 0 1)
           demo.evaluation demo.random).
  vm_compute. discriminate.
Defined.

Lemma try_variations_empty_range_witness :
  @_try_variations (mkParameters 2 1 10 1) demo.evaluation demo.random
    [demo.eA] [demo.eA; demo.eAB] 400000 demo.workload 5 [6; 20] 0%nat
  = Err ValueError.
Proof.
  apply (@try_variations_empty_range (mkParameters 2 1 10 1)
           demo.evaluation demo.random).
  - vm_compute. discriminate.
  - vm_compute. reflexivity.
Defined.

Section refiner_extras.
Context `{Parameters} `{CostEvaluation} `{Random} `{!RandomSpec}.

(** X8.  The refiner neither loses nor duplicates an entry: after every
    iteration the selected and the unused entries together are the
    entries the loop started with, so an entry is never in both lists
    unless it was so at the start. *)
Theorem refiner_keeps_entries (workload : Workload) (deadline : Z)
    (readings : list Z) (st : RefinerState) :
  1 < maximum_remove →
  ∃ log, while_time workload deadline readings st = Ok log ∧
    Forall (λ r, selected_indexes r.2 ++ not_used_indexes r.2
                 ≡ₚ selected_indexes st ++ not_used_indexes st) log.
Proof.
  intros Hmax.
  destruct (while_time_total workload deadline readings st Hmax) as [log Hlog].
  exists log. split; [done|].
  apply (while_time_invariant
           (λ st', selected_indexes st' ++ not_used_indexes st'
                   ≡ₚ selected_indexes st ++ not_used_indexes st)
           workload deadline readings) with (st := st); [|done..].
  intros st1 accepted st2 Hst1 Hit.
  apply iteration_spec in Hit as (Hall & _). by rewrite Hall.
Qed.

(** X9.  One iteration removes at least one entry from a non-empty
    selection, removes fewer than [maximum_remove] entries and no more
    than are selected, and adds fewer than [maximum_remove] entries. *)
Theorem try_variation_bounds (st : RefinerState) :
  1 < maximum_remove →
  ∃ t, try_variation st = Ok t ∧
    (length (t_removed t) ≤ length (selected_indexes st))%nat ∧
    Z.of_nat (length (t_removed t)) < maximum_remove ∧
    Z.of_nat (length (t_new_selected t)) < maximum_remove ∧
    (selected_indexes st ≠ [] → t_removed t ≠ []).
Proof.
  intros Hmax. destruct (try_variation_total st Hmax) as [t Ht].
  exists t. split; [done|]. revert Ht.
  unfold try_variation, random_randrange. rewrite decide_True by done. cbn.
  pose proof (randrange_bounds 1 maximum_remove (generator st) Hmax) as Hdraw.
  destruct (randrange 1 maximum_remove (generator st)) as [number_removed g0].
  simpl in Hdraw.
  pose proof (shuffle_Permutation
                (seq 0 (length (selected_indexes st))) g0) as Hperm.
  destruct (shuffle (seq 0 (length (selected_indexes st))) g0)
    as [positions g1]. simpl in Hperm.
  apply Permutation_length in Hperm. rewrite length_seq in Hperm.
  destruct (for_each remove_step _ _) as [[[sel1 du1] rem1]|] eqn:Hrem;
    cbn; [|done].
  apply remove_loop_length in Hrem.
  rewrite (Permutation_length (sorted_reverse_nat_Permutation _)) in Hrem.
  rewrite length_take in Hrem. simpl in Hrem.
  destruct (add_loop _ _ _ _ _) as [[[[du2 ns2] nu2] g2]|] eqn:Hadd;
    cbn; [|done].
  apply add_loop_length in Hadd. simpl in Hadd.
  intros [= <-]. simpl. repeat split; try lia.
  intros Hsel Hnil. rewrite Hnil in Hrem. simpl in Hrem.
  destruct (selected_indexes st); [done|]. simpl in *. lia.
Qed.

(** X10.  When the cost evaluation does not depend on the order of the
    indexes, the refiner never returns a selection that evaluates worse
    than the selection it was given. *)
Theorem try_variations_not_worse (selected indexes_benefits : list Entry)
    (disk_usage : Z) (workload : Workload) (start_time : Z)
    (readings : list Z) (g : rng) :
  (∀ indexes indexes', indexes ≡ₚ indexes' →
     calculate_cost workload indexes = calculate_cost workload indexes') →
  1 < maximum_remove →
  ∃ selected',
    _try_variations selected indexes_benefits disk_usage workload start_time
                    readings g = Ok selected' ∧
    _evaluate_workload selected' [] workload
    ≤ _evaluate_workload selected [] workload.
Proof.
  intros Horder Hmax. unfold _try_variations, _try_variations_log.
  set (st := initial_state selected indexes_benefits workload g).
  destruct (while_time_total workload (start_time + seconds_limit) readings
              st Hmax) as [log Hlog].
  rewrite Hlog. cbn. eexists. split; [done|].
  apply (final_selection_invariant
           (λ l, _evaluate_workload l [] workload
                 ≤ _evaluate_workload selected [] workload)); [done|].
  assert (Forall (λ r, current_cost r.2
                       = _evaluate_workload (selected_indexes r.2) [] workload
                       ∧ current_cost r.2 ≤ current_cost st) log) as Hinv.
  { apply (while_time_invariant
             (λ st', current_cost st'
                     = _evaluate_workload (selected_indexes st') [] workload
                     ∧ current_cost st' ≤ current_cost st)
             workload (start_time + seconds_limit) readings) with (st := st);
      [|done..].
    intros st1 accepted st2 [Heval Hle] Hit.
    pose proof Hit as Hspec. apply iteration_spec in Hspec as (_ & Hcost & _).
    destruct accepted.
    - split; [|lia]. revert Hit. unfold iteration.
      destruct (try_variation st1) as [t|]; cbn; [|done].
      unfold decide_variation. destruct (decide _); intros [= <-]; simpl.
      unfold _evaluate_workload. by rewrite !app_nil_r.
    - destruct Hcost as (Hsame & Hsel & _). split; [|lia].
      rewrite Hsame, Heval. unfold _evaluate_workload. rewrite !app_nil_r.
      apply Horder. by rewrite Hsel. }
  eapply Forall_impl; [exact Hinv|]. intros r [Heval Hle]. simpl.
  rewrite <- Heval. exact Hle.
Qed.

(** X11.  The greedy loop followed by the refiner, on a list without
    repeated entries or negative sizes and with a budget that is not
    negative: the refiner returns a selection within the disk
    constraint, without repeated entries, taken from the list. *)
Theorem fill_then_vary (indexes_benefits : list Entry) (workload : Workload)
    (start_time : Z) (readings : list Z) (g : rng) :
  NoDup indexes_benefits →
  Forall (λ x, 0 ≤ entry_size x) indexes_benefits →
  0 ≤ budget → 1 < maximum_remove →
  ∃ selected',
    _try_variations (greedy_fill indexes_benefits).1 indexes_benefits
                    (greedy_fill indexes_benefits).2 workload start_time
                    readings g = Ok selected' ∧
    sum_sizes selected' ≤ disk_constraint ∧
    NoDup selected' ∧ selected' ⊆ indexes_benefits.
Proof.
  intros Hnd Hnonneg Hbudget Hmax. unfold _try_variations, _try_variations_log.
  destruct (greedy_fill_elements indexes_benefits) as [Hincl Hsel].
  specialize (Hsel Hnd).
  pose proof (greedy_fill_within_budget indexes_benefits Hbudget) as Hfit.
  set (selected := (greedy_fill indexes_benefits).1) in *.
  set (st := initial_state selected indexes_benefits workload g).
  assert (selected_indexes st ++ not_used_indexes st ≡ₚ indexes_benefits)
    as Hpart by (by apply selection_and_rest).
  destruct (while_time_total workload (start_time + seconds_limit) readings
              st Hmax) as [log Hlog].
  rewrite Hlog. cbn. eexists. split; [done|].
  assert (Forall (λ r, selected_indexes r.2 ++ not_used_indexes r.2
                       ≡ₚ indexes_benefits
                       ∧ sum_sizes (selected_indexes r.2) ≤ disk_constraint)
                 log) as Hinv.
  { apply (while_time_invariant
             (λ st', selected_indexes st' ++ not_used_indexes st'
                     ≡ₚ indexes_benefits
                     ∧ sum_sizes (selected_indexes st') ≤ disk_constraint)
             workload (start_time + seconds_limit) readings) with (st := st);
      [|done..].
    intros st1 accepted st2 [Hall1 Hfit1] Hit.
    apply iteration_spec in Hit as (Hall & _ & Hstep).
    split; [by rewrite Hall|]. apply Hstep; [|done].
    rewrite <- Hall1 in Hnonneg. by apply Forall_app in Hnonneg as [? _]. }
  apply (final_selection_invariant
           (λ l, sum_sizes l ≤ disk_constraint ∧ NoDup l
                 ∧ l ⊆ indexes_benefits)); [done|].
  eapply Forall_impl; [exact Hinv|]. intros r [Hall Hle]. simpl.
  split; [done|]. split.
  - rewrite <- Hall in Hnd. by apply NoDup_app in Hnd as [? _].
  - intros x Hx. rewrite <- Hall. apply elem_of_app. by left.
Qed.

End refiner_extras.

Lemma demo_evaluation_order (indexes indexes' : list Index) :
  indexes ≡ₚ indexes' →
  demo.evaluation demo.workload indexes = demo.evaluation demo.workload indexes'.
Proof.
  intros Hperm. unfold demo.evaluation.
  destruct (decide (demo.iAB ∈ indexes)) as [Hin|Hout];
    destruct (decide (demo.iAB ∈ indexes')) as [Hin'|Hout']; try done.
  - destruct Hout'. by rewrite <- Hperm.
  - destruct Hout. by rewrite Hperm.
Qed.

Lemma refiner_keeps_entries_witness :
  ∃ log, @while_time demo.parameters demo.evaluation demo.random
           demo.workload 10 [1; 2; 11] demo.start = Ok log ∧
    Forall (λ r, selected_indexes r.2 ++ not_used_indexes r.2
                 ≡ₚ selected_indexes demo.start ++ not_used_indexes demo.start)
           log.
Proof.
  apply (@refiner_keeps_entries demo.parameters demo.evaluation demo.random
           demo_random_spec demo.workload 10 [1; 2; 11] demo.start).
  vm_compute. reflexivity.
Defined.

Lemma try_variation_bounds_witness :
  ∃ t, @try_variation demo.parameters demo.random demo.full = Ok t ∧
    (length (t_removed t) ≤ length (selected_indexes demo.full))%nat ∧
    Z.of_nat (length (t_removed t)) < @maximum_remove demo.parameters ∧
    Z.of_nat (length (t_new_selected t)) < @maximum_remove demo.parameters ∧
    (selected_indexes demo.full ≠ [] → t_removed t ≠ []).
Proof.
  apply (@try_variation_bounds demo.parameters demo.random demo_random_spec
           demo.full).
  vm_compute. reflexivity.
Defined.

Lemma try_variations_not_worse_witness :
  ∃ selected',
    @_try_variations demo.parameters demo.evaluation demo.random
      [demo.eA] [demo.eA; demo.eAB] 400000 demo.workload 0 [1; 2; 11] 0%nat
    = Ok selected' ∧
    @_evaluate_workload demo.evaluation selected' [] demo.workload
    ≤ @_evaluate_workload demo.evaluation [demo.eA] [] demo.workload.
Proof.
  apply (@try_variations_not_worse demo.parameters demo.evaluation demo.random
           demo_random_spec).
  - apply demo_evaluation_order.
  - vm_compute. reflexivity.
Defined.

Lemma fill_then_vary_witness :
  ∃ selected',
    @_try_variations demo.parameters demo.evaluation demo.random
      (@greedy_fill demo.parameters [demo.eA; demo.eAB; demo.eB; demo.eBA]).1
      [demo.eA; demo.eAB; demo.eB; demo.eBA]
      (@greedy_fill demo.parameters [demo.eA; demo.eAB; demo.eB; demo.eBA]).2
      demo.workload 0 [1; 2; 11] 0%nat = Ok selected' ∧
    sum_sizes selected' ≤ @disk_constraint demo.parameters ∧
    NoDup selected' ∧ selected' ⊆ [demo.eA; demo.eAB; demo.eB; demo.eBA].
Proof.
  apply (@fill_then_vary demo.parameters demo.evaluation demo.random
           demo_random_spec).
  - by_computation.
  - repeat constructor; vm_compute; discriminate.
  - vm_compute. discriminate.
  - vm_compute. reflexivity.
Defined.

(** ** Subsumption reducer *)

Section reducer_extras.
Context `{SizeEstimate} `{Subsumption}.

(** What the inner loop adds was scanned and is subsumed. *)
Lemma scan_lower_added high lower : ∀ removed x,
  x ∈ scan_lower high removed lower → x ∉ removed →
  x ∈ lower ∧ subsumes (index high) (index x) = true.
Proof.
  unfold scan_lower. induction lower as [|low lower IH]; intros removed x;
    simpl; [done|].
  intros Hx Hnew.
  destruct (decide (low ∈ removed)).
  { destruct (IH _ _ Hx Hnew). split; [by right|done]. }
  destruct (subsumes (index high) (index low)) eqn:Hsub.
  2:{ destruct (IH _ _ Hx Hnew). split; [by right|done]. }
  destruct (decide (x = low)) as [->|Hne]; [split; [by left|done]|].
  destruct (IH _ _ Hx) as [Hin Hs]; [set_solver|]. split; [by right|done].
Qed.

(** What the outer loop adds was added in the turn of an entry that
    was not removed before its turn and subsumes it. *)
Lemma scan_turns_added l ps : ∀ removed x,
  x ∈ foldl (scan_turn l) removed ps → x ∉ removed →
  ∃ ps1 p ps2, ps = ps1 ++ p :: ps2 ∧
    (p.2 ∉ foldl (scan_turn l) removed ps1) ∧
    x ∈ drop (p.1 + 1) l ∧ subsumes (index p.2) (index x) = true.
Proof.
  induction ps as [|p ps IH] using rev_ind; intros removed x Hx Hnew;
    [done|].
  rewrite foldl_app in Hx. cbn [foldl] in Hx.
  destruct (decide (x ∈ foldl (scan_turn l) removed ps)) as [Hold|Hnow].
  - destruct (IH _ _ Hold Hnew) as (ps1 & q & ps2 & -> & Hq & Hdrop & Hsub).
    exists ps1, q, (ps2 ++ [p]). by rewrite <- app_assoc.
  - exists ps, p, []. split; [done|]. unfold scan_turn in Hx at 1.
    cbn beta zeta in Hx.
    destruct (decide (p.2 ∈ foldl (scan_turn l) removed ps)); [done|].
    split; [done|]. by apply scan_lower_added in Hx.
Qed.

(** The turns of the outer loop come in the order of the positions. *)
Lemma enumerate_split (l : list IndexBenefit) ps1 p ps2 :
  enumerate l = ps1 ++ p :: ps2 →
  l !! p.1 = Some p.2 ∧ ∀ q, q ∈ ps2 → (p.1 < q.1)%nat.
Proof.
  intros Hsplit.
  assert (∀ k q, (ps1 ++ p :: ps2) !! k = Some q → q.1 = k ∧ l !! k = Some q.2)
    as Hat.
  { intros k q. rewrite <- Hsplit. unfold enumerate.
    rewrite list_lookup_imap. destruct (l !! k); [|done].
    by intros [= <-]. }
  destruct (Hat (length ps1) p) as [Hp Hl].
  { by rewrite list_lookup_middle. }
  split; [by rewrite Hp|].
  intros q Hq. apply list_elem_of_lookup in Hq as [m Hm].
  destruct (Hat (length ps1 + S m)%nat q) as [Hq _]; [|lia].
  rewrite lookup_app_r by lia.
  replace (length ps1 + S m - length ps1)%nat with (S m) by lia. done.
Qed.

Lemma scan_turns_positions l ps : ∀ removed x,
  x ∈ foldl (scan_turn l) removed ps →
  x ∈ removed ∨ ∃ q, q ∈ ps ∧ x ∈ drop (q.1 + 1) l.
Proof.
  induction ps as [|p ps IH]; intros removed x; simpl; [by left|].
  intros Hx. apply IH in Hx as [Hx|(q & Hq & Hx)].
  - unfold scan_turn in Hx. cbn beta zeta in Hx.
    destruct (decide (p.2 ∈ removed)); [by left|].
    apply scan_lower_elem_of in Hx as [Hx|Hx]; [by left|].
    right. exists p. split; [by left|done].
  - right. exists q. split; [by right|done].
Qed.

(** The early return for short lists agrees with the loops. *)
Lemma combine_subsumed_returns (l : list IndexBenefit) survivors :
  _combine_subsumed l = Ok survivors →
  survivors = list_to_set l ∖ scan_all l.
Proof.
  unfold _combine_subsumed.
  destruct (decide (length l < 2)%nat) as [Hshort|Hlong].
  - intros [= <-]. destruct l as [|a [|b l]]; simpl in Hshort; try lia.
    + set_solver.
    + unfold scan_all, scan_turn, scan_lower. simpl.
      rewrite decide_False by set_solver. set_solver.
  - destruct (_ ← getitem l 0; _) as [r0|]; cbn; [|done].
    destruct (_ ← getitem l 1; _) as [r1|]; cbn; [|done].
    destruct (Qle_bool r1 r0); [|done]. by intros [= <-].
Qed.

(** X12.  On a sorted list of pairwise distinct entries the reducer
    only removes what is covered: the survivors are entries of the
    list, and every entry that is removed is subsumed by a surviving
    entry that stands before it in the list. *)
Theorem combine_subsumed_covers (index_benefits : list IndexBenefit) :
  NoDup index_benefits → ratio_sorted index_benefits →
  ∃ survivors,
    _combine_subsumed index_benefits = Ok survivors ∧
    survivors ⊆ list_to_set index_benefits ∧
    ∀ lo, lo ∈ index_benefits → lo ∉ survivors →
      ∃ i j hi, (i < j)%nat ∧
        index_benefits !! i = Some hi ∧ index_benefits !! j = Some lo ∧
        hi ∈ survivors ∧ subsumes (index hi) (index lo) = true.
Proof.
  intros Hnd Hsorted.
  assert (∃ survivors, _combine_subsumed index_benefits = Ok survivors)
    as [survivors Hrun].
  { destruct (decide (length index_benefits < 2)%nat).
    - eexists. unfold _combine_subsumed. by rewrite decide_True.
    - eexists. apply combine_subsumed_sorted_run; [lia|done]. }
  exists survivors. split; [done|].
  apply combine_subsumed_returns in Hrun as ->. split; [set_solver|].
  intros lo Hlo Hgone.
  assert (lo ∈ scan_all index_benefits) as Hremoved.
  { destruct (decide (lo ∈ scan_all index_benefits)); [done|].
    destruct Hgone. apply elem_of_difference. split; [|done].
    by apply elem_of_list_to_set. }
  rewrite scan_all_unfold in Hremoved.
  apply scan_turns_added in Hremoved
    as (ps1 & [i hi] & ps2 & Hsplit & Hkept & Hdrop & Hsub); [|set_solver].
  simpl in *.
  destruct (enumerate_split _ _ _ _ Hsplit) as [Hi Hlater]. simpl in *.
  apply list_elem_of_lookup in Hdrop as [k Hk]. rewrite lookup_drop in Hk.
  exists i, (i + 1 + k)%nat, hi. split; [lia|]. split; [done|].
  split; [done|]. split; [|done].
  apply elem_of_difference. split.
  { apply elem_of_list_to_set, list_elem_of_lookup. eauto. }
  rewrite scan_all_unfold, Hsplit, foldl_app. simpl.
  intros Hhi. apply scan_turns_positions in Hhi as [Hhi|(q & Hq & Hhi)].
  - unfold scan_turn in Hhi. simpl in Hhi.
    rewrite decide_False in Hhi by done.
    apply scan_lower_elem_of in Hhi as [Hhi|Hhi]; [done|].
    apply list_elem_of_lookup in Hhi as [m Hm]. rewrite lookup_drop in Hm.
    pose proof (NoDup_lookup _ _ _ _ Hnd Hi Hm). lia.
  - apply list_elem_of_lookup in Hhi as [m Hm]. rewrite lookup_drop in Hm.
    pose proof (NoDup_lookup _ _ _ _ Hnd Hi Hm).
    specialize (Hlater q Hq). lia.
Qed.

(** X13.  When no entry's index subsumes the index of an entry behind
    it, the reducer removes nothing from a sorted list. *)
Theorem combine_subsumed_nothing_subsumed
    (index_benefits : list IndexBenefit) :
  ratio_sorted index_benefits →
  (∀ i j hi lo, (i < j)%nat →
     index_benefits !! i = Some hi → index_benefits !! j = Some lo →
     subsumes (index hi) (index lo) = false) →
  _combine_subsumed index_benefits = Ok (list_to_set index_benefits).
Proof.
  intros Hsorted Hnone.
  assert (scan_all index_benefits = ∅) as Hscan.
  { apply set_eq. intros x. split; [|set_solver]. intros Hx.
    rewrite scan_all_unfold in Hx.
    apply scan_turns_added in Hx
      as (ps1 & [i hi] & ps2 & Hsplit & _ & Hdrop & Hsub); [|set_solver].
    simpl in *. destruct (enumerate_split _ _ _ _ Hsplit) as [Hi _].
    simpl in *. apply list_elem_of_lookup in Hdrop as [k Hk].
    rewrite lookup_drop in Hk.
    rewrite (Hnone i (i + 1 + k)%nat hi x) in Hsub; [done|lia|done..]. }
  destruct (decide (length index_benefits < 2)%nat).
  - unfold _combine_subsumed. by rewrite decide_True.
  - rewrite combine_subsumed_sorted_run by (lia || done).
    rewrite Hscan. f_equal. set_solver.
Qed.

(** X14.  Given at least two entries the reducer raises
    [ZeroDivisionError] exactly when the first or the second entry has
    size zero; the sizes of the later entries play no part. *)
Theorem combine_subsumed_zero_size (a b : IndexBenefit)
    (rest : list IndexBenefit) :
  _combine_subsumed (a :: b :: rest) = Err ZeroDivisionError ↔
  IndexBenefit_size a = 0 ∨ IndexBenefit_size b = 0.
Proof.
  unfold _combine_subsumed.
  destruct (decide (length (a :: b :: rest) < 2)%nat); [simpl in *; lia|].
  unfold getitem; cbn. unfold benefit_size_ratio, truediv.
  destruct (decide (IndexBenefit_size a = 0)) as [Ha|Ha]; cbn;
    [by split; [left|]|].
  destruct (decide (IndexBenefit_size b = 0)) as [Hb|Hb]; cbn;
    [by split; [right|]|].
  split; [|by intros [?|?]]. by destruct (Qle_bool _ _).
Qed.

End reducer_extras.

Lemma combine_subsumed_covers_witness :
  ∃ survivors,
    @_combine_subsumed demo.sizes prefix_subsumes
      [mkIndexBenefit demo.iAB 50; mkIndexBenefit demo.iA 5;
       mkIndexBenefit demo.iB 1] = Ok survivors ∧
    ∃ i j hi, (i < j)%nat ∧
      [mkIndexBenefit demo.iAB 50; mkIndexBenefit demo.iA 5;
       mkIndexBenefit demo.iB 1] !! i = Some hi ∧
      [mkIndexBenefit demo.iAB 50; mkIndexBenefit demo.iA 5;
       mkIndexBenefit demo.iB 1] !! j = Some (mkIndexBenefit demo.iA 5) ∧
      hi ∈ survivors ∧
      prefix_subsumes (index hi) demo.iA = true.
Proof.
  destruct (@combine_subsumed_covers demo.sizes prefix_subsumes
              [mkIndexBenefit demo.iAB 50; mkIndexBenefit demo.iA 5;
               mkIndexBenefit demo.iB 1])
    as (survivors & Hrun & _ & Hcover).
  - by_computation.
  - split; repeat constructor; vm_compute; discriminate.
  - exists survivors. split; [done|].
    apply (Hcover (mkIndexBenefit demo.iA 5)); [by_computation|].
    assert (@_combine_subsumed demo.sizes prefix_subsumes
              [mkIndexBenefit demo.iAB 50; mkIndexBenefit demo.iA 5;
               mkIndexBenefit demo.iB 1]
            = Ok {[mkIndexBenefit demo.iAB 50; mkIndexBenefit demo.iB 1]})
      as Hvalue by same_value.
    rewrite Hvalue in Hrun. injection Hrun as <-. by_computation.
Defined.

Lemma combine_subsumed_nothing_subsumed_witness :
  @_combine_subsumed demo.sizes prefix_subsumes
    [mkIndexBenefit demo.iA 3; mkIndexBenefit demo.iB 1]
  = Ok (list_to_set [mkIndexBenefit demo.iA 3; mkIndexBenefit demo.iB 1]).
Proof.
  apply (@combine_subsumed_nothing_subsumed demo.sizes prefix_subsumes).
  - split; repeat constructor; vm_compute; discriminate.
  - intros i j hi lo Hij Hi Hj.
    destruct i as [|[|i]], j as [|[|j]]; simpl in *; simplify_eq; try lia;
      reflexivity.
Defined.

(** ** Benefit calculator *)

Section benefit_extras.
Context `{SizeEstimate} `{Subsumption}.

Lemma benefit_size_ratio_raises (x : IndexBenefit) e :
  benefit_size_ratio x = Err e →
  e = ZeroDivisionError ∧ IndexBenefit_size x = 0.
Proof.
  unfold benefit_size_ratio, truediv.
  destruct (decide (IndexBenefit_size x = 0)); [|done]. by intros [= <-].
Qed.

(** Computing the keys fails with the error of some key. *)
Lemma with_keys_raises {A K : Type} (key : A → result K) (l : list A) e :
  with_keys key l = Err e → ∃ x, x ∈ l ∧ key x = Err e.
Proof.
  induction l as [|x l IH]; simpl; [done|].
  destruct (key x) as [k|e'] eqn:Hk; cbn.
  - destruct (with_keys key l) as [r|e'']; cbn; [done|].
    intros [= <-]. destruct IH as (y & Hy & Hey); [done|].
    exists y. split; [by right|done].
  - intros [= <-]. exists x. split; [by left|done].
Qed.

Lemma with_keys_returns {A K : Type} (key : A → result K) (l : list A) r :
  with_keys key l = Ok r → Forall (λ x, ∃ k, key x = Ok k) l.
Proof.
  revert r. induction l as [|x l IH]; intros r; simpl; [by constructor|].
  destruct (key x) as [k|] eqn:Hk; cbn; [|done].
  destruct (with_keys key l) as [r'|]; cbn; [|done].
  intros _. constructor; [by eexists|]. by eapply IH.
Qed.

(** The list the benefit calculator sorts. *)
Lemma calculate_index_benefits_unfold (candidates : gset Index)
    (query_results : gmap Query QueryResult) :
  _calculate_index_benefits candidates query_results
  = sorted_reverse benefit_size_ratio
      ((λ c, mkIndexBenefit c (benefit_of c query_results))
         <$> elements candidates).
Proof. unfold _calculate_index_benefits. by rewrite foldl_snoc_fmap. Qed.

(** X15.  The benefit calculator raises [ZeroDivisionError] exactly
    when some candidate has the estimated size zero. *)
Theorem calculate_index_benefits_zero_size (candidates : gset Index)
    (query_results : gmap Query QueryResult) :
  _calculate_index_benefits candidates query_results = Err ZeroDivisionError ↔
  ∃ c, c ∈ candidates ∧ estimated_size c = 0.
Proof.
  rewrite calculate_index_benefits_unfold. unfold sorted_reverse. split.
  - destruct (with_keys _ _) as [keyed|e] eqn:Hkeys; cbn; [done|].
    intros [= ->]. apply with_keys_raises in Hkeys as (x & Hx & Hraise).
    apply list_elem_of_fmap in Hx as (c & -> & Hc).
    apply benefit_size_ratio_raises in Hraise as [_ Hzero].
    exists c. split; [by apply elem_of_elements|done].
  - intros (c & Hc & Hzero).
    destruct (with_keys _ _) as [keyed|e] eqn:Hkeys; cbn.
    + apply with_keys_returns in Hkeys. rewrite Forall_forall in Hkeys.
      destruct (Hkeys (mkIndexBenefit c (benefit_of c query_results)))
        as [k Hk].
      { apply list_elem_of_fmap. exists c. split; [done|].
        by apply elem_of_elements. }
      unfold benefit_size_ratio, truediv, IndexBenefit_size in Hk.
      simpl in Hk. by rewrite decide_True in Hk.
    + apply with_keys_raises in Hkeys as (x & _ & Hraise).
      by apply benefit_size_ratio_raises in Hraise as [-> _].
Qed.

(** X16.  The reducer accepts what the benefit calculator returns:
    when no candidate has size zero, the calculated list has no
    repeated entry and no repeated index, the reducer's assertion
    holds on it, and the reducer keeps its first entry. *)
Theorem calculate_then_combine (candidates : gset Index)
    (query_results : gmap Query QueryResult) :
  (∀ c, c ∈ candidates → estimated_size c ≠ 0) →
  ∃ l survivors,
    _calculate_index_benefits candidates query_results = Ok l ∧
    NoDup (index <$> l) ∧ NoDup l ∧
    _combine_subsumed l = Ok survivors ∧
    (∀ x, head l = Some x → x ∈ survivors).
Proof.
  intros Hsize. rewrite calculate_index_benefits_unfold.
  set (made := (λ c, mkIndexBenefit c (benefit_of c query_results))
                 <$> elements candidates).
  destruct (sorted_reverse_spec benefit_size_ratio float_ratio made)
    as (l & Hl & Hperm & Hsorted).
  { unfold made. apply Forall_fmap, Forall_forall. intros c Hc. simpl.
    apply benefit_size_ratio_defined. simpl.
    by apply Hsize, elem_of_elements. }
  assert (NoDup (index <$> l)) as Hindexes.
  { rewrite Hperm. unfold made. rewrite <- list_fmap_compose.
    rewrite list_fmap_id. apply NoDup_elements. }
  assert (NoDup l) as Hnd by (by eapply NoDup_fmap_1).
  assert (Forall (λ x, estimated_size (index x) ≠ 0) l) as Hsz.
  { rewrite Hperm. unfold made.
    apply Forall_fmap, Forall_forall. intros c Hc.
    simpl. by apply Hsize, elem_of_elements. }
  exists l. destruct (decide (length l < 2)%nat) as [Hshort|Hlong].
  - exists (list_to_set l). repeat split; try done.
    + unfold _combine_subsumed. by rewrite decide_True.
    + intros x Hx. apply elem_of_list_to_set. destruct l; simplify_eq/=.
      by left.
  - exists (list_to_set l ∖ scan_all l). repeat split; try done.
    + apply combine_subsumed_float_sorted_run; [lia|done..].
    + intros x Hx. apply elem_of_difference. split.
      * apply elem_of_list_to_set. destruct l; simplify_eq/=. by left.
      * by apply scan_all_keeps_head.
Qed.

(** X17.  When no query costs more with its recommended indexes than
    without indexes, no calculated benefit is negative. *)
Theorem calculate_index_benefits_nonnegative (candidates : gset Index)
    (query_results : gmap Query QueryResult) :
  (∀ c, c ∈ candidates → estimated_size c ≠ 0) →
  (∀ q v, query_results !! q = Some v →
          cost_with_recommended_indexes v ≤ cost_without_indexes v) →
  ∃ l, _calculate_index_benefits candidates query_results = Ok l ∧
       Forall (λ x, 0 ≤ benefit x) l.
Proof.
  intros Hsize Hcosts. rewrite calculate_index_benefits_unfold.
  set (made := (λ c, mkIndexBenefit c (benefit_of c query_results))
                 <$> elements candidates).
  destruct (sorted_reverse_spec benefit_size_ratio float_ratio made)
    as (l & Hl & Hperm & _).
  { unfold made. apply Forall_fmap, Forall_forall. intros c Hc. simpl.
    apply benefit_size_ratio_defined. simpl.
    by apply Hsize, elem_of_elements. }
  exists l. split; [done|]. rewrite Hperm. unfold made.
  apply Forall_fmap, Forall_forall. intros c _. simpl.
  rewrite benefit_of_sum. unfold benefit_sum.
  assert (Forall (λ v, cost_with_recommended_indexes v ≤ cost_without_indexes v)
                 (map_to_list query_results).*2) as Hall.
  { apply Forall_fmap, Forall_forall. intros [q v] Hqv. simpl.
    apply elem_of_map_to_list in Hqv. by eapply Hcosts. }
  induction Hall as [|v vs Hv _ IH]; [done|].
  rewrite filter_cons. destruct (decide (c ∈ recommended_indexes v)); [|done].
  rewrite fmap_cons. simpl. lia.
Qed.

End benefit_extras.

Lemma calculate_index_benefits_zero_size_witness :
  @_calculate_index_benefits (λ _, 0) {[demo.iA]} ∅ = Err ZeroDivisionError.
Proof.
  apply (@calculate_index_benefits_zero_size (λ _, 0) {[demo.iA]} ∅).
  exists demo.iA. split; [by_computation|reflexivity].
Defined.

Lemma calculate_then_combine_witness :
  ∃ l survivors,
    @_calculate_index_benefits demo.sizes {[demo.iAB; demo.iA]}
      (@_exploit_virtual_indexes demo.parameters demo.connector
         [] demo.workload).2.1 = Ok l ∧
    NoDup (index <$> l) ∧ NoDup l ∧
    @_combine_subsumed demo.sizes prefix_subsumes l = Ok survivors ∧
    (∀ x, head l = Some x → x ∈ survivors).
Proof.
  apply (@calculate_then_combine demo.sizes prefix_subsumes).
  intros c Hc. apply elem_of_union in Hc as [Hc|Hc];
    apply elem_of_singleton in Hc as ->; vm_compute; discriminate.
Defined.

Lemma calculate_index_benefits_nonnegative_witness :
  ∃ l, @_calculate_index_benefits demo.sizes {[demo.iAB; demo.iA]}
         {[demo.q1 := mkQueryResult 100 10 [demo.iAB]]} = Ok l ∧
       Forall (λ x, 0 ≤ benefit x) l.
Proof.
  apply (@calculate_index_benefits_nonnegative demo.sizes).
  - intros c Hc. apply elem_of_union in Hc as [Hc|Hc];
      apply elem_of_singleton in Hc as ->; vm_compute; discriminate.
  - intros q v Hqv. apply lookup_singleton_Some in Hqv as [_ <-].
    vm_compute. discriminate.
Defined.

(** ** Cost-oracle adapter *)

Section adapter_extras.
Context `{Parameters} `{DatabaseConnector}.

Lemma possible_indexes_NoDup (query : Query) : NoDup (_possible_indexes query).
Proof.
  rewrite possible_indexes_unfold.
  apply NoDup_fmap_2; [by intros ?? [=]|]. apply NoDup_elements.
Qed.

(** X18.  The recommended indexes of a query are picked from its
    candidates in the order of generation: they form a sublist of the
    generated candidates and none occurs twice. *)
Theorem recommended_indexes_sublist (s : db) (query : Query) :
  (_recommended_indexes s query).2.1 `sublist_of` _possible_indexes query ∧
  NoDup (_recommended_indexes s query).2.1.
Proof.
  assert ((_recommended_indexes s query).2.1
          `sublist_of` _possible_indexes query) as Hsub.
  { unfold _recommended_indexes.
    pose proof (simulate_all_indexes (_possible_indexes query) (s, []))
      as Hsim.
    destruct (foldl _ _ _) as [s1 named]. simpl in *. rewrite <- Hsim.
    apply fmap_sublist, sublist_filter. }
  split; [done|]. eapply sublist_NoDup; [|exact Hsub].
  apply possible_indexes_NoDup.
Qed.

(** X19.  For a workload whose queries are pairwise distinct, the
    returned union holds exactly the indexes of the recommended subsets
    in the returned per-query results. *)
Theorem exploit_virtual_indexes_exact (s : db) (workload : Workload) :
  NoDup (queries workload) →
  ∀ i, i ∈ (_exploit_virtual_indexes s workload).2.2 ↔
       ∃ q v, (_exploit_virtual_indexes s workload).2.1 !! q = Some v ∧
              i ∈ recommended_indexes v.
Proof.
  unfold _exploit_virtual_indexes. destruct workload as [qs]. simpl.
  intros Hnd.
  assert ((∀ q, is_Some ((foldl exploit_query (s, (∅, ∅)) qs).2.1 !! q)
                → q ∈ qs) ∧
          ∀ i, i ∈ (foldl exploit_query (s, (∅, ∅)) qs).2.2 ↔
               ∃ q v, (foldl exploit_query (s, (∅, ∅)) qs).2.1 !! q = Some v ∧
                      i ∈ recommended_indexes v) as [_ Hexact]; [|done].
  induction qs as [|query qs IH] using rev_ind; simpl.
  - split.
    + intros q [v Hv]. by rewrite lookup_empty in Hv.
    + intros i. split; [by intros ?%elem_of_empty|].
      intros (q & v & Hq & _). by rewrite lookup_empty in Hq.
  - apply NoDup_app in Hnd as (Hqs & Hfresh & _).
    destruct (IH Hqs) as [IHdom IHexact].
    rewrite foldl_app. simpl. rewrite exploit_query_results. simpl.
    assert ((foldl exploit_query (s, (∅, ∅)) qs).2.1 !! query = None)
      as Hnone.
    { apply eq_None_not_Some. intros Hsome. apply IHdom in Hsome.
      apply (Hfresh _ Hsome). by left. }
    split.
    + intros q. rewrite elem_of_app, list_elem_of_singleton.
      destruct (decide (query = q)) as [->|Hne]; [by right|].
      rewrite lookup_insert_ne by done. intros Hq. left. by apply IHdom.
    + intros i. rewrite elem_of_union, elem_of_list_to_set, IHexact. split.
      * intros [(q & v & Hq & Hi)|Hi].
        -- exists q, v. split; [|done]. rewrite lookup_insert_ne; [done|].
           intros ->. by rewrite Hnone in Hq.
        -- eexists query, _. split; [apply lookup_insert_eq|done].
      * intros (q & v & Hq & Hi).
        destruct (decide (query = q)) as [->|Hne].
        -- rewrite lookup_insert_eq in Hq. simplify_eq/=. by right.
        -- rewrite lookup_insert_ne in Hq by done. left. eauto.
Qed.

End adapter_extras.

Lemma exploit_virtual_indexes_exact_witness :
  demo.iAB ∈ (@_exploit_virtual_indexes demo.parameters demo.connector
                [] demo.workload).2.2 ↔
  ∃ q v, (@_exploit_virtual_indexes demo.parameters demo.connector
            [] demo.workload).2.1 !! q = Some v ∧
         demo.iAB ∈ recommended_indexes v.
Proof.
  apply (@exploit_virtual_indexes_exact demo.parameters demo.connector
           [] demo.workload).
  by_computation.
Defined.

(** ** Candidate generator *)

Section generator_extras.
Context `{Parameters}.

(** The candidates of a query. *)
Lemma elem_of_possible_indexes (query : Query) (p : list Column) :
  mkIndex p ∈ _possible_indexes query ↔
  (1 ≤ Z.of_nat (length p) ≤ max_index_columns) ∧ NoDup p ∧
  ∃ t, ∀ c, c ∈ p → c ∈ columns query ∧ table c = t.
Proof.
  rewrite possible_indexes_unfold, list_elem_of_fmap. split.
  - intros (p' & [= <-] & Hp). apply elem_of_elements in Hp.
    apply elem_of_foldl_union in Hp as [Hp|([t s] & Hts & Hp)]; [set_solver|].
    apply elem_of_map_to_list in Hts.
    apply elem_of_foldl_union in Hp as [Hp|(n & Hn & Hp)]; [set_solver|].
    simpl in Hp. apply elem_of_list_to_set in Hp.
    apply elem_of_permutations in Hp as (Hlen & Hnd & Hsub);
      [|apply NoDup_elements].
    apply elem_of_seqZ in Hn.
    pose proof (group_columns (columns query) t) as Hgroup.
    rewrite Hts in Hgroup.
    split; [lia|]. split; [done|]. exists t. intros c Hc.
    apply Hgroup, elem_of_elements, Hsub, Hc.
  - intros (Hlen & Hnd & t & Hcols). exists p. split; [done|].
    apply elem_of_elements.
    destruct p as [|c0 p']; [simpl in Hlen; lia|].
    destruct (Hcols c0) as [Hc0 Ht]; [by left|].
    pose proof (group_columns (columns query) t) as Hgroup.
    destruct (foldl group_step ∅ (columns query) !! t) as [s|] eqn:Hs.
    2:{ by destruct (Hgroup c0). }
    apply elem_of_foldl_union. right. exists (t, s). split.
    { by apply elem_of_map_to_list. }
    apply elem_of_foldl_union. right.
    exists (Z.of_nat (length (c0 :: p'))). split.
    { apply elem_of_seqZ. lia. }
    simpl. apply elem_of_list_to_set.
    apply elem_of_permutations; [apply NoDup_elements|].
    split; [simpl; lia|]. split; [done|].
    intros c Hc. apply elem_of_elements, Hgroup. by apply Hcols.
Qed.

(** X20.  The generator returns no candidate exactly when
    [max_index_columns] is not positive or the query has no column. *)
Theorem possible_indexes_empty (query : Query) :
  _possible_indexes query = [] ↔
  max_index_columns ≤ 0 ∨ columns query = [].
Proof.
  split.
  - intros Hempty.
    destruct (decide (max_index_columns ≤ 0)) as [|Hpos]; [by left|]. right.
    destruct (columns query) as [|c cols] eqn:Hcols; [done|].
    assert (mkIndex [c] ∈ _possible_indexes query) as Hin.
    { apply elem_of_possible_indexes. split; [simpl; lia|].
      split; [apply NoDup_singleton|]. exists (table c).
      intros c' ->%list_elem_of_singleton. rewrite Hcols. split; [by left|done]. }
    rewrite Hempty in Hin. by apply elem_of_nil in Hin.
  - intros Hnone. apply elem_of_nil_inv. intros [p] Hp.
    apply elem_of_possible_indexes in Hp as (Hlen & _ & t & Hcols).
    destruct Hnone as [HK|Hnocol]; [lia|].
    destruct p as [|c p]; [simpl in Hlen; lia|].
    destruct (Hcols c) as [Hc _]; [by left|].
    rewrite Hnocol in Hc. by apply elem_of_nil in Hc.
Qed.

(** A table has an entry only if some column belongs to it. *)
Lemma group_columns_inhabited (cols : list Column) t s :
  foldl group_step ∅ cols !! t = Some s → ∃ c, c ∈ cols ∧ table c = t.
Proof.
  revert s. induction cols as [|column cols IH] using rev_ind; intros s.
  - simpl. by rewrite lookup_empty.
  - rewrite foldl_app. simpl. rewrite group_step_lookup.
    destruct (decide (table column = t)) as [Heq|Hne].
    + intros _. exists column. split; [|done]. apply elem_of_app. right.
      by left.
    + intros Hs. destruct (IH _ Hs) as (c & Hc & Ht). exists c.
      split; [|done]. apply elem_of_app. by left.
Qed.

(** X21.  The candidates depend on the set of the query's columns
    only: neither the order of the columns nor a repeated column
    changes which candidates are returned. *)
Theorem possible_indexes_columns_set (query query' : Query) :
  (list_to_set (columns query) : gset Column) = list_to_set (columns query') →
  _possible_indexes query ≡ₚ _possible_indexes query'.
Proof.
  intros Hset.
  assert (∀ c, c ∈ columns query ↔ c ∈ columns query') as Hsame.
  { intros c. rewrite <- !(elem_of_list_to_set (C := gset Column)).
    by rewrite Hset. }
  assert (foldl group_step ∅ (columns query)
          = foldl group_step ∅ (columns query')) as Hgroups.
  { apply map_eq. intros t.
    pose proof (group_columns (columns query) t) as Hg.
    pose proof (group_columns (columns query') t) as Hg'.
    destruct (foldl group_step ∅ (columns query) !! t) as [s|] eqn:Hs;
      destruct (foldl group_step ∅ (columns query') !! t) as [s'|] eqn:Hs'.
    - f_equal. apply set_eq. intros c. rewrite Hg, Hg', Hsame. done.
    - apply group_columns_inhabited in Hs as (c & Hc & Ht).
      destruct (Hg' c); [by apply Hsame|done].
    - apply group_columns_inhabited in Hs' as (c & Hc & Ht).
      destruct (Hg c); [by apply Hsame|done].
    - done. }
  unfold _possible_indexes. by rewrite Hgroups.
Qed.

End generator_extras.

(** X22.  Raising [max_index_columns] or adding columns to the query
    only adds candidates: every candidate of the smaller setting is a
    candidate of the larger one. *)
Theorem possible_indexes_monotone (parameters parameters' : Parameters)
    (query query' : Query) (i : Index) :
  @max_index_columns parameters ≤ @max_index_columns parameters' →
  columns query ⊆ columns query' →
  i ∈ @_possible_indexes parameters query →
  i ∈ @_possible_indexes parameters' query'.
Proof.
  intros HK Hcols. destruct i as [p].
  rewrite !elem_of_possible_indexes.
  intros (Hlen & Hnd & t & Hp). split; [lia|]. split; [done|].
  exists t. intros c Hc. destruct (Hp c Hc). split; [by apply Hcols|done].
Qed.

Lemma possible_indexes_columns_set_witness :
  @_possible_indexes demo.parameters (mkQuery 1 [demo.A; demo.B])
  ≡ₚ @_possible_indexes demo.parameters (mkQuery 1 [demo.B; demo.A; demo.B]).
Proof.
  apply (@possible_indexes_columns_set demo.parameters).
  same_value.
Defined.

Lemma possible_indexes_monotone_witness :
  demo.iAB ∈ @_possible_indexes DEFAULT_PARAMETERS
               (mkQuery 2 [demo.A; demo.B; mkColumn "t" "c"]).
Proof.
  apply (possible_indexes_monotone demo.parameters DEFAULT_PARAMETERS
           demo.q1 (mkQuery 2 [demo.A; demo.B; mkColumn "t" "c"])).
  - vm_compute. discriminate.
  - intros c Hc. apply elem_of_cons in Hc as [->|Hc]; [by_computation|].
    apply list_elem_of_singleton in Hc as ->. by_computation.
  - by_computation.
Defined.

Section itertools_counting.
Context {A : Type}.
Implicit Types (l p : list A).

Lemma selections_fst l : (itertools.selections l).*1 = l.
Proof.
  induction l as [|x l IH]; simpl; [done|]. f_equal.
  rewrite <- list_fmap_compose. by rewrite <- IH at 2.
Qed.

Lemma selections_length_rest l x rest :
  (x, rest) ∈ itertools.selections l → S (length rest) = length l.
Proof.
  intros (l1 & l2 & -> & ->)%elem_of_selections.
  rewrite !length_app. simpl. lia.
Qed.

Lemma selections_rest_NoDup l x rest :
  NoDup l → (x, rest) ∈ itertools.selections l → NoDup rest.
Proof.
  intros Hl (l1 & l2 & -> & ->)%elem_of_selections.
  apply NoDup_app in Hl as (Hl1 & Hl12 & Hl2).
  apply NoDup_cons in Hl2 as [_ Hl2].
  apply NoDup_app. split; [done|]. split; [|done].
  intros y Hy1 Hy2. apply (Hl12 _ Hy1). by right.
Qed.

(** In a list without repetition an element stands at one place. *)
Lemma NoDup_split_unique x l1 l2 k1 k2 :
  NoDup (l1 ++ x :: l2) → l1 ++ x :: l2 = k1 ++ x :: k2 →
  l1 = k1 ∧ l2 = k2.
Proof.
  revert k1. induction l1 as [|y l1 IH]; intros k1 Hnd Heq.
  - destruct k1 as [|z k1]; simplify_eq/=; [done|].
    apply NoDup_cons in Hnd as [Hz _]. destruct Hz.
    apply elem_of_app. right. by left.
  - destruct k1 as [|z k1]; simplify_eq/=.
    + apply NoDup_cons in Hnd as [Hz _]. destruct Hz.
      apply elem_of_app. right. by left.
    + apply NoDup_cons in Hnd as [_ Hnd].
      by destruct (IH k1 Hnd) as [-> ->].
Qed.

Lemma length_bind_constant {B : Type} (f : B → list (list A)) (k : nat)
    (xs : list B) :
  (∀ x, x ∈ xs → length (f x) = k) → length (xs ≫= f) = (length xs * k)%nat.
Proof.
  induction xs as [|x xs IH]; intros Hk; [done|].
  cbn. rewrite length_app, Hk by (by left).
  rewrite IH; [lia|]. intros y Hy. apply Hk. by right.
Qed.

(** [itertools.permutations(l, r)] yields n (n-1) ... (n-r+1)
    sequences for a list of n elements. *)
Lemma length_permutations r : ∀ l,
  length (itertools.permutations l r) = falling (length l) r.
Proof.
  induction r as [|r IH]; intros l; [done|]. simpl.
  rewrite (length_bind_constant _ (falling (length l - 1) r)).
  - f_equal. rewrite <- (selections_fst l) at 2. by rewrite length_fmap.
  - intros [x rest] Hx. simpl. rewrite length_fmap, IH.
    apply selections_length_rest in Hx. f_equal. lia.
Qed.

Lemma NoDup_permutations r : ∀ l,
  NoDup l → NoDup (itertools.permutations l r).
Proof.
  induction r as [|r IH]; intros l Hl; simpl; [apply NoDup_singleton|].
  assert (NoDup (itertools.selections l)) as Hsel.
  { apply (NoDup_fmap_1 fst). by rewrite selections_fst. }
  apply NoDup_bind; [| |done].
  - intros [x1 r1] [x2 r2] p H1 H2 Hp1 Hp2. simpl in *.
    apply list_elem_of_fmap in Hp1 as (p1 & -> & _).
    apply list_elem_of_fmap in Hp2 as (p2 & [= <- _] & _).
    apply elem_of_selections in H1 as (a1 & b1 & Hl1 & ->).
    apply elem_of_selections in H2 as (a2 & b2 & Hl2 & ->).
    subst l. by destruct (NoDup_split_unique _ _ _ _ _ Hl Hl2) as [-> ->].
  - intros [x rest] Hx. simpl. apply NoDup_fmap_2; [by intros ?? [=]|].
    apply IH. by eapply selections_rest_NoDup.
Qed.

End itertools_counting.

Section generator_counting.
Context `{Parameters}.

Lemma size_length_classes (l : list Column) (rs : list Z) :
  NoDup l → NoDup (Z.to_nat <$> rs) →
  ∀ acc : gset (list Column),
  (∀ p r, p ∈ acc → r ∈ rs → length p ≠ Z.to_nat r) →
  size (foldl (λ (acc : gset (list Column)) index_length,
                 acc ∪ list_to_set
                   (itertools.permutations l (Z.to_nat index_length)))
              acc rs)
  = (size acc
     + sum_list ((λ r, falling (length l) (Z.to_nat r)) <$> rs))%nat.
Proof.
  intros Hl. induction rs as [|r rs IH]; intros Hrs acc Hacc.
  { simpl. lia. }
  rewrite fmap_cons in Hrs. apply NoDup_cons in Hrs as [Hr Hrs].
  rewrite fmap_cons. cbn [foldl sum_list_with].
  rewrite IH; [|done|].
  - rewrite size_union.
    + rewrite size_list_to_set by (by apply NoDup_permutations).
      rewrite length_permutations. unfold id. lia.
    + intros p Hp Hp'. apply elem_of_list_to_set in Hp'.
      apply elem_of_permutations in Hp' as [Hlen _]; [|done].
      apply (Hacc p r); [done|by left|done].
  - intros p r' Hp Hr'. apply elem_of_union in Hp as [Hp|Hp].
    + apply Hacc; [done|by right].
    + apply elem_of_list_to_set in Hp.
      apply elem_of_permutations in Hp as [Hlen _]; [|done].
      rewrite Hlen. intros Heq. apply Hr. rewrite Heq.
      by apply list_elem_of_fmap_2.
Qed.

Lemma range_lengths_NoDup (K : Z) : NoDup (Z.to_nat <$> range 1 (K + 1)).
Proof.
  apply NoDup_fmap_2_strong; [|apply NoDup_seqZ].
  intros x y Hx Hy Hxy. apply elem_of_seqZ in Hx, Hy. lia.
Qed.

(** X23.  For a query whose columns all belong to one table, the
    number of candidates is the number of sequences of 1 to
    [max_index_columns] different columns: with n different columns,
    n + n (n-1) + ... + n (n-1) ... (n-K+1). *)
Theorem possible_indexes_count (query : Query) :
  (∀ c c', c ∈ columns query → c' ∈ columns query → table c = table c') →
  length (_possible_indexes query)
  = sequence_count (size (list_to_set (columns query) : gset Column))
                   max_index_columns.
Proof.
  intros Hone. rewrite possible_indexes_unfold, length_fmap.
  unfold sequence_count.
  destruct (columns query) as [|c0 cols] eqn:Hcols.
  - cbn [foldl]. rewrite map_to_list_empty. cbn [foldl].
    rewrite elements_empty, list_to_set_nil, size_empty. cbn [length].
    symmetry.
    assert (∀ rs : list Z, Forall (λ r, 1 ≤ r) rs →
              sum_list ((λ r, falling 0 (Z.to_nat r)) <$> rs) = 0%nat)
      as Hzero.
    { induction 1 as [|r rs Hr _ IH]; [done|].
      rewrite fmap_cons. cbn [sum_list_with]. rewrite IH.
      destruct (Z.to_nat r) eqn:E; [lia|done]. }
    apply Hzero, Forall_forall. intros r Hr. apply elem_of_seqZ in Hr. lia.
  - rewrite <- Hcols in *.
    assert (foldl group_step ∅ (columns query)
            = {[table c0 := list_to_set (columns query)]}) as ->.
    { apply map_eq. intros t.
      pose proof (group_columns (columns query) t) as Hg.
      assert (c0 ∈ columns query) as Hc0 by (rewrite Hcols; by left).
      destruct (decide (table c0 = t)) as [<-|Hne].
      - rewrite lookup_singleton_eq.
        destruct (foldl group_step ∅ (columns query) !! table c0) as [s|].
        + f_equal. apply set_eq. intros c.
          rewrite Hg, elem_of_list_to_set. naive_solver.
        + by destruct (Hg c0).
      - rewrite lookup_singleton_ne by done.
        destruct (foldl group_step ∅ (columns query) !! t) as [s|] eqn:Hs;
          [|done].
        apply group_columns_inhabited in Hs as (c & Hc & Ht).
        destruct Hne. rewrite <- Ht. by apply Hone. }
    rewrite map_to_list_singleton. simpl. rewrite union_empty_l_L.
    change (length (elements ?X)) with (size X).
    rewrite size_length_classes.
    + rewrite size_empty. simpl. done.
    + apply NoDup_elements.
    + apply range_lengths_NoDup.
    + intros p r Hp. by apply elem_of_empty in Hp.
Qed.

End generator_counting.

Lemma possible_indexes_count_witness :
  length (@_possible_indexes demo.parameters demo.q1)
  = sequence_count (size (list_to_set (columns demo.q1) : gset Column))
                   (@max_index_columns demo.parameters).
Proof.
  apply (@possible_indexes_count demo.parameters demo.q1).
  intros c c' Hc Hc'.
  apply elem_of_cons in Hc as [->|Hc], Hc' as [->|Hc'];
    rewrite ?list_elem_of_singleton in *; subst; reflexivity.
Defined.

Section composition_extras.
Context `{Parameters} `{DatabaseConnector}.

(** X24.  The greedy loop never goes back on a decision: what it
    selected from the beginning of a list stays, in place, at the
    beginning of what it selects from the whole list. *)
Theorem greedy_fill_prefix (l1 l2 : list Entry) :
  (greedy_fill l1).1 `prefix_of` (greedy_fill (l1 ++ l2)).1.
Proof.
  induction l2 as [|x l2 IH] using rev_ind; [by rewrite app_nil_r|].
  rewrite app_assoc.
  destruct (greedy_fill_admits (l1 ++ l2) x) as [Hadmit Hskip].
  destruct (decide (sum_sizes (greedy_fill (l1 ++ l2)).1 + entry_size x
                    ≤ disk_constraint)) as [Hfit|Hnot].
  - rewrite (Hadmit Hfit). by apply prefix_app_r.
  - by rewrite (Hskip Hnot).
Qed.

Lemma exploit_candidates_generated (s : db) (qs : list Query) i :
  i ∈ (foldl exploit_query (s, (∅, ∅)) qs).2.2 →
  ∃ q, q ∈ qs ∧ i ∈ _possible_indexes q.
Proof.
  induction qs as [|query qs IH] using rev_ind; simpl.
  - by intros ?%elem_of_empty.
  - rewrite foldl_app. simpl. rewrite exploit_query_results. simpl.
    intros [Hi|Hi]%elem_of_union.
    + destruct (IH Hi) as (q & Hq & Hgen). exists q. split; [|done].
      apply elem_of_app. by left.
    + exists query. split; [apply elem_of_app; right; by left|].
      apply elem_of_list_to_set in Hi.
      by eapply recommended_indexes_possible.
Qed.

(** X25.  Every index in the union returned by the adapter has between
    one and [max_index_columns] columns, no column twice, and all its
    columns are columns of one table in one query of the workload. *)
Theorem exploit_virtual_indexes_width (s : db) (workload : Workload)
    (i : Index) :
  i ∈ (_exploit_virtual_indexes s workload).2.2 →
  (1 ≤ Z.of_nat (length (index_columns i)) ≤ max_index_columns) ∧
  NoDup (index_columns i) ∧
  ∃ q t, q ∈ queries workload ∧
         ∀ c, c ∈ index_columns i → c ∈ columns q ∧ table c = t.
Proof.
  unfold _exploit_virtual_indexes. intros Hi.
  apply exploit_candidates_generated in Hi as (q & Hq & Hgen).
  destruct i as [p]. apply elem_of_possible_indexes in Hgen
    as (Hlen & Hnd & t & Hcols).
  split; [done|]. split; [done|]. by exists q, t.
Qed.

End composition_extras.

Lemma exploit_virtual_indexes_width_witness :
  (1 ≤ Z.of_nat (length (index_columns demo.iAB))
   ≤ @max_index_columns demo.parameters) ∧
  NoDup (index_columns demo.iAB) ∧
  ∃ q t, q ∈ queries demo.workload ∧
         ∀ c, c ∈ index_columns demo.iAB → c ∈ columns q ∧ table c = t.
Proof.
  apply (@exploit_virtual_indexes_width demo.parameters demo.connector
           [] demo.workload demo.iAB).
  by_computation.
Defined.
